(** * GIF Maker: normalisation, frame collection and assembly of [src/App.tsx]

    A shallow embedding of the handlers of the [App] component
    ([processImage], [handleFileChange], [handleRemoveImage],
    [handleCreateGif], [handleBack]) together with the properties the
    specification states about them.

    JavaScript numbers are IEEE-754 binary64 values; they are modelled with
    the executable [SpecFloat] operations of the standard library at
    precision 53 and maximal exponent 1024. The browser (file reader, image
    decoder, canvas, random UUIDs) and the GIF encoder are oracles collected
    in the [Browser] record. *)

From Stdlib Require Import ZArith Lia Bool Zpower.
From Stdlib Require Import SpecFloat.
From stdpp Require Import base list strings.

Local Open Scope Z_scope.

(** ** JavaScript numbers *)

Module Number.

Definition prec : Z := 53.
Definition emax : Z := 1024.

Definition number := spec_float.

(** An integer literal or integer-valued DOM attribute as a number. *)
Definition of_Z (z : Z) : number := binary_normalize prec emax z 0 false.

(** The operators [/] and [*]. *)
Definition div (x y : number) : number := SFdiv prec emax x y.
Definition mul (x y : number) : number := SFmul prec emax x y.

(** [Math.round]: the integer closest to the argument, ties towards
    plus infinity, read back as an integer the way the canvas size
    attributes do (a value that is not finite reads as 0). *)
Definition Math_round (x : number) : Z :=
  match x with
  | S754_finite s m e =>
      let v := if s then Z.neg m else Z.pos m in
      if 0 <=? e then v * 2 ^ e
      else (2 * v + 2 ^ (- e)) / 2 ^ (1 - e)
  | _ => 0
  end.

End Number.

(** ** Data model *)

(** [types.ts]: the phases of a session. *)
Inductive AppState := Capturing | Processing | Animating | Error.

(** An element of the [images] state: a frame of the collection. *)
Record Frame := { id : string; dataUrl : string }.

(** The state hooks of [App]. *)
Record Session := {
  appState : AppState;
  images : list Frame;
  generatedGif : option string;
  loading : bool;
  error : option string;
  gifSpeed : Number.number
}.

Definition setAppState (v : AppState) (s : Session) : Session :=
  {| appState := v; images := images s; generatedGif := generatedGif s;
     loading := loading s; error := error s; gifSpeed := gifSpeed s |}.

Definition setImages (f : list Frame -> list Frame) (s : Session) : Session :=
  {| appState := appState s; images := f (images s); generatedGif := generatedGif s;
     loading := loading s; error := error s; gifSpeed := gifSpeed s |}.

Definition setGeneratedGif (v : option string) (s : Session) : Session :=
  {| appState := appState s; images := images s; generatedGif := v;
     loading := loading s; error := error s; gifSpeed := gifSpeed s |}.

Definition setLoading (v : bool) (s : Session) : Session :=
  {| appState := appState s; images := images s; generatedGif := generatedGif s;
     loading := v; error := error s; gifSpeed := gifSpeed s |}.

Definition setError (v : option string) (s : Session) : Session :=
  {| appState := appState s; images := images s; generatedGif := generatedGif s;
     loading := loading s; error := v; gifSpeed := gifSpeed s |}.

(** The initial values of the hooks. *)
Definition initialSession : Session :=
  {| appState := Capturing; images := []; generatedGif := None;
     loading := false; error := None; gifSpeed := Number.of_Z 120 |}.

(** ** Promises and thrown values *)

(** What a [catch] clause can receive: an [Error] object with its
    [message], or any other value. *)
Inductive Thrown := ErrorObj (message : string) | NonError.

(** The two ways a promise settles. *)
Inductive Settled (A : Type) := Resolve (a : A) | Reject (e : Thrown).
Arguments Resolve {A} a.
Arguments Reject {A} e.

(** ** The browser and the encoder *)

(** A selected file, with its declared MIME type. *)
Record File := { name : string; type : string }.

(** A decoded image. *)
Record Image := { naturalWidth : Z; naturalHeight : Z }.

(** An off-screen canvas after [drawImage]: its size and the data URL of
    the image drawn on it. *)
Record Canvas := { width : Z; height : Z; drawn : string }.

(** The [gifshot] library. *)
Module Gifshot.

(** The options object handed to [gifshot.createGIF]. *)
Record Options := {
  images : list string;
  interval : Number.number;
  numWorkers : Z;
  gifWidth : Z;
  gifHeight : Z
}.

(** The object handed to the callback. *)
Record Result := { error : bool; image : string; errorMsg : string }.

End Gifshot.

(** The oracles of the environment.
    - [readAsDataURL]: the [FileReader]; [None] is [onerror].
    - [decode]: assigning [src] of an [Image]; [None] is [onerror].
    - [getContext2d]: whether [canvas.getContext('2d')] is not null.
    - [toDataURL]: the PNG data URL of a canvas.
    - [randomUUID]: the result of the k-th call of [crypto.randomUUID]
      made for a batch.
    - [createGIF]: the object the encoder passes to the callback; [None]
      when the callback is never invoked. *)
Record Browser := {
  readAsDataURL : File -> option string;
  decode : string -> option Image;
  getContext2d : Z -> Z -> bool;
  toDataURL : Canvas -> string;
  randomUUID : nat -> string;
  createGIF : Gifshot.Options -> option Gifshot.Result
}.

(** ** [processImage] *)

(** The block "If larger, resize while maintaining aspect ratio": the new
    width and height of an image of natural size [w] x [h]. *)
Definition resized (w h maxDimension : Z) : Z * Z :=
  if h <? w then
    let newWidth := maxDimension in
    let newHeight :=
      Number.Math_round
        (Number.mul (Number.div (Number.of_Z h) (Number.of_Z w))
                    (Number.of_Z maxDimension)) in
    (newWidth, newHeight)
  else
    let newHeight := maxDimension in
    let newWidth :=
      Number.Math_round
        (Number.mul (Number.div (Number.of_Z w) (Number.of_Z h))
                    (Number.of_Z maxDimension)) in
    (newWidth, newHeight).

(** The canvas on which [processImage] draws, or the error it rejects
    with. *)
Definition processImage_canvas (B : Browser) (url : string) (maxDimension : Z)
  : Settled Canvas :=
  match decode B url with
  | None => Reject (ErrorObj "Failed to load image for processing.")
  | Some img =>
      let w := naturalWidth img in
      let h := naturalHeight img in
      if (w <=? maxDimension) && (h <=? maxDimension) then
        if getContext2d B w h
        then Resolve {| width := w; height := h; drawn := url |}
        else Reject (ErrorObj "Could not get canvas context.")
      else
        let '(newWidth, newHeight) := resized w h maxDimension in
        if getContext2d B newWidth newHeight
        then Resolve {| width := newWidth; height := newHeight; drawn := url |}
        else Reject (ErrorObj "Could not get canvas context for resizing.")
  end.

(** The size of that canvas. *)
Definition canvasSize (w h maxDimension : Z) : Z * Z :=
  if (w <=? maxDimension) && (h <=? maxDimension) then (w, h)
  else resized w h maxDimension.

Definition processImage (B : Browser) (url : string) (maxDimension : Z)
  : Settled string :=
  match processImage_canvas B url maxDimension with
  | Resolve c => Resolve (toDataURL B c)
  | Reject e => Reject e
  end.

(** ** [handleFileChange] *)

(** The promise built for one file, without the id: [None] when it never
    settles (the reader delivers an empty result), [Resolve None] for
    [resolve(null)]. *)
Definition filePromise (B : Browser) (file : File) : option (Settled (option string)) :=
  if negb (String.prefix "image/" (type file)) then Some (Resolve None)
  else
    match readAsDataURL B file with
    | None => Some (Reject (ErrorObj "Không thể đọc tệp đã chọn."))
    | Some url =>
        if String.eqb url "" then None
        else
          match processImage B url 1920 with
          | Resolve processedImage => Some (Resolve (Some processedImage))
          | Reject err => Some (Reject err)
          end
    end.

(** The state of [Promise.all(imagePromises)] while the batch runs:
    which input promises have settled, the [values] array (with holes),
    the count of elements still to resolve, the number of UUIDs drawn and
    the state of the combined promise. *)
Record Batch := {
  fired : list bool;
  values : list (option (option Frame));
  remaining : nat;
  uuids : nat;
  outcome : option (Settled (list (option (option Frame))))
}.

Definition newBatch (n : nat) : Batch :=
  {| fired := replicate n false; values := replicate n None;
     remaining := n; uuids := 0; outcome := None |}.

(** The resolve-element function of [Promise.all] for index [i]. *)
Definition allResolve (i : nat) (v : option Frame) (b : Batch) : Batch :=
  let values' := <[i := Some v]> (values b) in
  let remaining' := pred (remaining b) in
  {| fired := fired b; values := values'; remaining := remaining';
     uuids := uuids b;
     outcome :=
       if Nat.eqb remaining' 0 then
         match outcome b with
         | None => Some (Resolve values')
         | Some r => Some r
         end
       else outcome b |}.

(** The reject function of the combined promise. *)
Definition allReject (e : Thrown) (b : Batch) : Batch :=
  {| fired := fired b; values := values b; remaining := remaining b;
     uuids := uuids b;
     outcome := match outcome b with None => Some (Reject e) | Some r => Some r end |}.

Definition markFired (i : nat) (b : Batch) : Batch :=
  {| fired := <[i := true]> (fired b); values := values b;
     remaining := remaining b; uuids := uuids b; outcome := outcome b |}.

Definition drawUUID (b : Batch) : Batch :=
  {| fired := fired b; values := values b; remaining := remaining b;
     uuids := S (uuids b); outcome := outcome b |}.

(** The promise of file [i] settles (a promise settles once). *)
Definition settle (B : Browser) (files : list File) (b : Batch) (i : nat) : Batch :=
  match files !! i, fired b !! i with
  | Some file, Some false =>
      match filePromise B file with
      | None => b
      | Some (Resolve None) => allResolve i None (markFired i b)
      | Some (Resolve (Some processedImage)) =>
          allResolve i
            (Some {| id := randomUUID B (uuids b); dataUrl := processedImage |})
            (drawUUID (markFired i b))
      | Some (Reject err) => allReject err (markFired i b)
      end
  | _, _ => b
  end.

(** The indices of the files that are not images: their promises are
    resolved inside the executor, before any reader completes. *)
Fixpoint nonImages (files : list File) (i : nat) : list nat :=
  match files with
  | [] => []
  | file :: rest =>
      if negb (String.prefix "image/" (type file))
      then i :: nonImages rest (S i)
      else nonImages rest (S i)
  end.

(** The batch after the readers completed in the order [sched]. *)
Definition runBatch (B : Browser) (files : list File) (sched : list nat) : Batch :=
  foldl (settle B files) (newBatch (length files)) (nonImages files 0 ++ sched).

(** [.filter(img => img !== null)] on the resolved array. The array has no
    hole when the combined promise resolves ([sinv_slots] below), so
    dropping holes here changes nothing. *)
Definition newImages (vs : list (option (option Frame))) : list Frame :=
  omap (fun v => match v with Some (Some img) => Some img | _ => None end) vs.

(** [handleFileChange]; [files] is [event.target.files], [sched] the
    order in which the readers of the batch complete. While the combined
    promise is pending the handler is suspended at its [await], after
    [setError(null)] and [setLoading(true)]. *)
Definition handleFileChange (B : Browser) (files : option (list File))
    (sched : list nat) (s : Session) : Session :=
  match files with
  | None => s
  | Some [] => s
  | Some fs =>
      let s1 := setLoading true (setError None s) in
      match outcome (runBatch B fs sched) with
      | None => s1
      | Some (Resolve vs) =>
          setLoading false (setImages (fun prev => prev ++ newImages vs) s1)
      | Some (Reject err) =>
          setLoading false
            (setError
               (Some match err with
                     | ErrorObj message => message
                     | NonError => "Không thể xử lý một hoặc nhiều ảnh."
                     end) s1)
      end
  end.

(** ** [handleRemoveImage] *)

Definition handleRemoveImage (i : string) (s : Session) : Session :=
  setImages (fun prev => filter (fun img => id img <> i) prev) s.

(** ** [handleCreateGif] *)

(** The callback given to [gifshot.createGIF]. *)
Definition createGIF_callback (obj : Gifshot.Result) (s : Session) : Session :=
  if negb (Gifshot.error obj) then
    setAppState Animating (setGeneratedGif (Some (Gifshot.image obj)) s)
  else
    setAppState Capturing
      (setError (Some ("Tạo GIF thất bại: " +:+ Gifshot.errorMsg obj)) s).

(** [firstImage.onerror]. *)
Definition firstImage_onerror (s : Session) : Session :=
  setAppState Capturing
    (setError (Some "Không thể đọc kích thước ảnh để tạo GIF.") s).

(** [firstImage.onload]: the call of the encoder and, when it answers,
    its callback. The second component lists the calls made. *)
Definition firstImage_onload (B : Browser) (imageUrls : list string)
    (intervalInSeconds : Number.number) (firstImage : Image) (s : Session)
  : Session * list Gifshot.Options :=
  let options :=
    {| Gifshot.images := imageUrls;
       Gifshot.interval := intervalInSeconds;
       Gifshot.numWorkers := 2;
       Gifshot.gifWidth := naturalWidth firstImage;
       Gifshot.gifHeight := naturalHeight firstImage |} in
  match createGIF B options with
  | Some obj => (createGIF_callback obj s, [options])
  | None => (s, [options])
  end.

(** The part of [handleCreateGif] that runs in the click itself; the
    flag is [false] when the guard returns early. *)
Definition handleCreateGif_begin (s : Session) : Session * bool :=
  if (length (images s) <? 2)%nat then
    (setError (Some "Vui lòng tải lên ít nhất 2 ảnh để tạo GIF.") s, false)
  else (setError None (setAppState Processing s), true).

(** [handleCreateGif] run to completion: the final session and the calls
    made to the encoder. The guard leaves at least two frames, so
    [images[0]] exists and the empty case is never taken. *)
Definition handleCreateGif (B : Browser) (s : Session)
  : Session * list Gifshot.Options :=
  match handleCreateGif_begin s with
  | (s1, false) => (s1, [])
  | (s1, true) =>
      let imageUrls := map dataUrl (images s) in
      let intervalInSeconds := Number.div (gifSpeed s) (Number.of_Z 1000) in
      match images s with
      | [] => (s1, [])
      | img0 :: _ =>
          match decode B (dataUrl img0) with
          | Some firstImage =>
              firstImage_onload B imageUrls intervalInSeconds firstImage s1
          | None => (firstImage_onerror s1, [])
          end
      end
  end.

(** ** [handleBack] *)

Definition handleBack (s : Session) : Session :=
  setGeneratedGif None (setAppState Capturing s).

(** ** Vocabulary of the properties *)

(** The options [handleCreateGif] builds for a session whose first frame
    decoded to [firstImage]. *)
Definition optionsFor (s : Session) (firstImage : Image) : Gifshot.Options :=
  {| Gifshot.images := map dataUrl (images s);
     Gifshot.interval := Number.div (gifSpeed s) (Number.of_Z 1000);
     Gifshot.numWorkers := 2;
     Gifshot.gifWidth := naturalWidth firstImage;
     Gifshot.gifHeight := naturalHeight firstImage |}.

(** The ways assembly fails: the first frame does not decode, or the
    encoder answers with its error flag set. *)
Definition assemblyFails (B : Browser) (s : Session) : bool :=
  match images s with
  | [] => false
  | img0 :: _ =>
      match decode B (dataUrl img0) with
      | None => true
      | Some firstImage =>
          match createGIF B (optionsFor s firstImage) with
          | Some obj => Gifshot.error obj
          | None => false
          end
      end
  end.

(** The number of input promises of a batch that have not settled. *)
Definition pending (fl : list bool) : nat :=
  length (filter (fun x => x = false) fl).

(** The data URLs of the normalised images of a batch, in the order in
    which the files were selected (files that are not images are left
    out). *)
Definition normalizedInOrder (B : Browser) (files : list File) : list string :=
  omap (fun file => match filePromise B file with
                    | Some (Resolve (Some url)) => Some url
                    | _ => None
                    end) files.

(** What the slot of a file holds once its promise has resolved. *)
Definition slot_ok (B : Browser) (file : File) (v : option Frame) : Prop :=
  match filePromise B file with
  | Some (Resolve None) => v = None
  | Some (Resolve (Some url)) =>
      exists k, v = Some {| id := randomUUID B k; dataUrl := url |}
  | _ => False
  end.

(** The shift record [mrs] holds the quotient [N / D] with the position
    of the remainder: the round bit says that the remainder is at least
    half of [D], the sticky bit that it is neither zero nor exactly half. *)
Definition located (N D : Z) (mrs : shr_record) : Prop :=
  shr_m mrs = N / D /\
  shr_r mrs = (D <=? 2 * (N mod D)) /\
  shr_s mrs = negb ((N mod D =? 0) || (2 * (N mod D) =? D)).

(** [num / den] rounded to the nearest integer, halves upwards, in exact
    arithmetic: the [round] of the specification. *)
Definition roundHalfUp (num den : Z) : Z := (2 * num + den) / (2 * den).

(** [num / den] is exactly halfway between two integers. *)
Definition isTie (num den : Z) : Prop := (2 * num + den) mod (2 * den) = 0.

(** [r] is [num / den] rounded to a nearest integer: the value rounded
    half up, or the integer below it when the quotient is a tie. *)
Definition nearlyRounded (num den r : Z) : Prop :=
  r = roundHalfUp num den \/ (isTie num den /\ r = roundHalfUp num den - 1).

(** The output size of [normalize] in the words of the specification. *)
Definition specNormalizedSize (w h : Z) : Z * Z :=
  if (w <=? 1920) && (h <=? 1920) then (w, h)
  else if h <? w then (1920, roundHalfUp (h * 1920) w)
  else (roundHalfUp (w * 1920) h, 1920).

(** The invariant of a running batch: the arrays keep the length of the
    batch, the count is at least the number of promises not yet settled, a
    resolution happens at count 0 with the [values] array, a rejection
    carries the error of a file of the batch, and a delivered failure has
    rejected the combined promise. *)
Record batch_inv (B : Browser) (files : list File) (b : Batch) : Prop := {
  inv_fired_len : length (fired b) = length files;
  inv_values_len : length (values b) = length files;
  inv_pending : (pending (fired b) <= remaining b)%nat;
  inv_resolved : forall vs, outcome b = Some (Resolve vs) ->
    remaining b = 0%nat /\ vs = values b;
  inv_rejected : forall e, outcome b = Some (Reject e) ->
    exists i file, files !! i = Some file /\
                   filePromise B file = Some (Reject e);
  inv_failure_seen : forall i file e,
    files !! i = Some file -> filePromise B file = Some (Reject e) ->
    fired b !! i = Some true -> exists e', outcome b = Some (Reject e')
}.

(** The invariant of a batch in which no promise rejects or hangs: the
    count is the number of promises not yet settled, a settled file has its
    value in its own slot, and the combined promise resolves with [values]
    when the count reaches 0. *)
Record success_inv (B : Browser) (files : list File) (b : Batch) : Prop := {
  sinv_fired_len : length (fired b) = length files;
  sinv_values_len : length (values b) = length files;
  sinv_count : remaining b = pending (fired b);
  sinv_waiting : (0 < remaining b)%nat -> outcome b = None;
  sinv_done : remaining b = 0%nat -> outcome b = Some (Resolve (values b));
  sinv_slots : forall i file, files !! i = Some file ->
    fired b !! i = Some true ->
    exists v, values b !! i = Some (Some v) /\ slot_ok B file v
}.

(** ** Sample environments and sessions *)

(** [s] occurs in [t]. *)
Definition contains (s t : string) : Prop :=
  exists pre post, t = pre +:+ s +:+ post.

Fixpoint sampleId (k : nat) : string :=
  match k with
  | O => "id"
  | S k' => "x" +:+ sampleId k'
  end.

(** A browser in which [broken.png] cannot be read, [corrupt.png] cannot
    be decoded, [big.jpg] is 3000 x 2000, every other image is 800 x 600,
    and the encoder succeeds. *)
Definition sampleBrowser : Browser :=
  {| readAsDataURL := fun f =>
       if String.eqb (name f) "broken.png" then None
       else Some ("data:" +:+ name f);
     decode := fun url =>
       if String.eqb url "data:corrupt.png" then None
       else if String.eqb url "data:big.jpg"
       then Some {| naturalWidth := 3000; naturalHeight := 2000 |}
       else Some {| naturalWidth := 800; naturalHeight := 600 |};
     getContext2d := fun _ _ => true;
     toDataURL := fun c => "png:" +:+ drawn c;
     randomUUID := sampleId;
     createGIF := fun _ =>
       Some {| Gifshot.error := false; Gifshot.image := "data:image/gif";
               Gifshot.errorMsg := "" |} |}.

(** The same browser with an encoder that fails with [oom]. *)
Definition oomBrowser : Browser :=
  {| readAsDataURL := readAsDataURL sampleBrowser;
     decode := decode sampleBrowser;
     getContext2d := getContext2d sampleBrowser;
     toDataURL := toDataURL sampleBrowser;
     randomUUID := randomUUID sampleBrowser;
     createGIF := fun _ =>
       Some {| Gifshot.error := true; Gifshot.image := "";
               Gifshot.errorMsg := "oom" |} |}.

(** A browser in which every image is 2560 x 1282. *)
Definition wideBrowser : Browser :=
  {| readAsDataURL := readAsDataURL sampleBrowser;
     decode := fun _ => Some {| naturalWidth := 2560; naturalHeight := 1282 |};
     getContext2d := getContext2d sampleBrowser;
     toDataURL := toDataURL sampleBrowser;
     randomUUID := randomUUID sampleBrowser;
     createGIF := createGIF sampleBrowser |}.

Definition frameA : Frame := {| id := "a"; dataUrl := "png:data:a.png" |}.
Definition frameB : Frame := {| id := "b"; dataUrl := "png:data:b.png" |}.
Definition frameC : Frame := {| id := "c"; dataUrl := "png:data:c.png" |}.

(** A session with three frames and 100 ms per frame. *)
Definition threeFrames : Session :=
  {| appState := Capturing; images := [frameA; frameB; frameC];
     generatedGif := None; loading := false; error := None;
     gifSpeed := Number.of_Z 100 |}.

(** A session whose first frame holds a data URL that does not decode. *)
Definition undecodableFirstFrame : Session :=
  {| appState := Capturing;
     images := [ {| id := "x"; dataUrl := "data:corrupt.png" |};
                 frameA; frameB ];
     generatedGif := None; loading := false; error := None;
     gifSpeed := Number.of_Z 100 |}.

(** A session with a single frame. *)
Definition oneFrame : Session :=
  {| appState := Capturing; images := [frameA];
     generatedGif := None; loading := false; error := None;
     gifSpeed := Number.of_Z 120 |}.

(** The session [threeFrames] once its GIF has been assembled. *)
Definition animating : Session :=
  {| appState := Animating; images := [frameA; frameB; frameC];
     generatedGif := Some "data:image/gif"; loading := false; error := None;
     gifSpeed := Number.of_Z 100 |}.

(** A session whose [error] hook holds a message. *)
Definition withError : Session :=
  {| appState := Capturing; images := [frameA];
     generatedGif := None; loading := false; error := Some "earlier";
     gifSpeed := Number.of_Z 120 |}.

(** ** The rest of the component *)

(** [isCreateDisabled]: the Create button is disabled with fewer than two
    frames or while an upload is loading. *)
Definition isCreateDisabled (s : Session) : bool :=
  (length (images s) <? 2)%nat || loading s.

(** The bookkeeping of ids in a running batch: a promise that has not
    settled has an empty slot, the ids of the frames in [values] are
    distinct, and each of them is a UUID that was already drawn. *)
Definition batch_ids_inv (B : Browser) (b : Batch) : Prop :=
  (forall i, fired b !! i = Some false -> values b !! i = Some None) /\
  NoDup (map id (newImages (values b))) /\
  (forall f, f ∈ newImages (values b) ->
     exists k, (k < uuids b)%nat /\ id f = randomUUID B k).

(** ** The component as an event machine *)

(** The slider [onChange]: [setGifSpeed(v)]. *)
Definition setGifSpeed (v : Number.number) (s : Session) : Session :=
  {| appState := appState s; images := images s; generatedGif := generatedGif s;
     loading := loading s; error := error s; gifSpeed := v |}.

(** What [renderContent] puts on the page: the capture view with its
    frames, its slider and the disabled flags of its two buttons, the
    loading overlay, the player, nothing at all, or the error panel with
    the error message. *)
Inductive View :=
| CaptureView (frames : list Frame) (speed : Number.number)
              (uploadDisabled createDisabled : bool)
| LoadingOverlayView
| AnimationPlayerView (gifUrl : string)
| NothingView
| ErrorView (message : option string).

Definition renderContent (s : Session) : View :=
  match appState s with
  | Capturing =>
      CaptureView (images s) (gifSpeed s) (loading s) (isCreateDisabled s)
  | Processing => LoadingOverlayView
  | Animating =>
      match generatedGif s with
      | Some gifUrl =>
          if String.eqb gifUrl "" then NothingView
          else AnimationPlayerView gifUrl
      | None => NothingView
      end
  | Error => ErrorView (error s)
  end.

(** The part of [handleFileChange] after the [await]: the [try] branch for
    a resolved array, the [catch] branch for a rejection, and [finally]. *)
Definition resumeUpload (r : Settled (list (option (option Frame))))
    (s : Session) : Session :=
  match r with
  | Resolve vs =>
      setLoading false (setImages (fun prev => prev ++ newImages vs) s)
  | Reject err =>
      setLoading false
        (setError
           (Some match err with
                 | ErrorObj message => message
                 | NonError => "Không thể xử lý một hoặc nhiều ảnh."
                 end) s)
  end.

(** An assembly in flight: the first image is loading (with the values the
    click captured), or the encoder has been called. *)
Inductive Assembly :=
| Probing (imageUrls : list string) (intervalInSeconds : Number.number)
          (src : string)
| Encoding (options : Gifshot.Options).

(** The browser once [n] values of [crypto.randomUUID] have been drawn:
    the next call returns the value that follows them. *)
Definition afterUUIDs (n : nat) (B : Browser) : Browser :=
  {| readAsDataURL := readAsDataURL B;
     decode := decode B;
     getContext2d := getContext2d B;
     toDataURL := toDataURL B;
     randomUUID := fun k => randomUUID B (n + k);
     createGIF := createGIF B |}.

(** The component between two events: the hooks, the upload whose [await]
    is pending, the assembly in flight, the calls made to the encoder so
    far and the number of UUIDs drawn by the uploads that have settled. *)
Record App := {
  session : Session;
  upload : option (list File * Batch);
  assembly : option Assembly;
  encoderCalls : list Gifshot.Options;
  uuidsDrawn : nat
}.

Definition initialApp : App :=
  {| session := initialSession; upload := None; assembly := None;
     encoderCalls := []; uuidsDrawn := 0 |}.

Definition withSession (s : Session) (a : App) : App :=
  {| session := s; upload := upload a; assembly := assembly a;
     encoderCalls := encoderCalls a; uuidsDrawn := uuidsDrawn a |}.

(** The events: the user picks files, a reader of the batch completes, the
    user removes a frame, moves the slider or clicks Create, the first image
    loads or fails, the encoder answers, the user clicks Back in the player
    or Retry in the error panel. *)
Inductive Event :=
| FilesChosen (files : option (list File))
| ReaderCompleted (i : nat)
| RemoveClicked (i : string)
| SpeedChanged (v : Number.number)
| CreateClicked
| FirstImageSettled
| EncoderAnswered
| BackClicked
| RetryClicked.

(** The [await] of [handleFileChange]: it returns when the combined
    promise has settled; the UUIDs the batch has drawn are then behind.
    A reader that completes after its batch was rejected draws a UUID for
    a frame that nobody keeps: the component has no event for it, and
    [randomUUID B] numbers the other draws. *)
Definition awaitUpload (fs : list File) (b : Batch) (a : App) : App :=
  match outcome b with
  | None =>
      {| session := session a; upload := Some (fs, b);
         assembly := assembly a; encoderCalls := encoderCalls a;
         uuidsDrawn := uuidsDrawn a |}
  | Some r =>
      {| session := resumeUpload r (session a); upload := None;
         assembly := assembly a; encoderCalls := encoderCalls a;
         uuidsDrawn := (uuidsDrawn a + uuids b)%nat |}
  end.

(** One event. A control that is not on the page, or is disabled, gives no
    event: the file picker opens from the upload button of the capture
    view, which is disabled while loading; Create is disabled by
    [isCreateDisabled]; Back belongs to the player and Retry to the error
    panel. A completion for which nothing is in flight changes nothing.
    The readers of a batch draw their UUIDs after the ones drawn by the
    batches before it: [crypto.randomUUID] does not start again. *)
Definition step (B : Browser) (a : App) (e : Event) : App :=
  match e with
  | FilesChosen files =>
      match renderContent (session a) with
      | CaptureView _ _ false _ =>
          match files with
          | None => a
          | Some [] => a
          | Some fs =>
              awaitUpload fs
                (foldl (settle (afterUUIDs (uuidsDrawn a) B) fs)
                   (newBatch (length fs)) (nonImages fs 0))
                (withSession (setLoading true (setError None (session a))) a)
          end
      | _ => a
      end
  | ReaderCompleted i =>
      match upload a with
      | Some (fs, b) =>
          awaitUpload fs (settle (afterUUIDs (uuidsDrawn a) B) fs b i) a
      | None => a
      end
  | RemoveClicked i =>
      match renderContent (session a) with
      | CaptureView _ _ _ _ => withSession (handleRemoveImage i (session a)) a
      | _ => a
      end
  | SpeedChanged v =>
      match renderContent (session a) with
      | CaptureView _ _ _ _ => withSession (setGifSpeed v (session a)) a
      | _ => a
      end
  | CreateClicked =>
      match renderContent (session a) with
      | CaptureView _ _ _ false =>
          match handleCreateGif_begin (session a), images (session a) with
          | (s1, true), img0 :: _ =>
              {| session := s1; upload := upload a;
                 assembly :=
                   Some (Probing (map dataUrl (images (session a)))
                           (Number.div (gifSpeed (session a)) (Number.of_Z 1000))
                           (dataUrl img0));
                 encoderCalls := encoderCalls a;
                 uuidsDrawn := uuidsDrawn a |}
          | (s1, _), _ => withSession s1 a
          end
      | _ => a
      end
  | FirstImageSettled =>
      match assembly a with
      | Some (Probing imageUrls intervalInSeconds src) =>
          match decode B src with
          | Some firstImage =>
              let options :=
                {| Gifshot.images := imageUrls;
                   Gifshot.interval := intervalInSeconds;
                   Gifshot.numWorkers := 2;
                   Gifshot.gifWidth := naturalWidth firstImage;
                   Gifshot.gifHeight := naturalHeight firstImage |} in
              {| session := session a; upload := upload a;
                 assembly := Some (Encoding options);
                 encoderCalls := encoderCalls a ++ [options];
                 uuidsDrawn := uuidsDrawn a |}
          | None =>
              {| session := firstImage_onerror (session a); upload := upload a;
                 assembly := None; encoderCalls := encoderCalls a;
                 uuidsDrawn := uuidsDrawn a |}
          end
      | _ => a
      end
  | EncoderAnswered =>
      match assembly a with
      | Some (Encoding options) =>
          match createGIF B options with
          | Some obj =>
              {| session := createGIF_callback obj (session a);
                 upload := upload a; assembly := None;
                 encoderCalls := encoderCalls a;
                 uuidsDrawn := uuidsDrawn a |}
          | None => a
          end
      | _ => a
      end
  | BackClicked =>
      match renderContent (session a) with
      | AnimationPlayerView _ => withSession (handleBack (session a)) a
      | _ => a
      end
  | RetryClicked =>
      match renderContent (session a) with
      | ErrorView _ => withSession (handleBack (session a)) a
      | _ => a
      end
  end.

(** The component after a sequence of events. *)
Definition run (B : Browser) (events : list Event) : App :=
  foldl (step B) initialApp events.

(** What holds of the component after any sequence of events. *)
Record app_inv (a : App) : Prop := {
  ainv_no_error : appState (session a) <> Error;
  ainv_loading : loading (session a) = true <-> is_Some (upload a);
  ainv_processing : appState (session a) = Processing <-> is_Some (assembly a);
  ainv_animating :
    appState (session a) = Animating <-> is_Some (generatedGif (session a));
  ainv_capturing :
    appState (session a) <> Capturing ->
    upload a = None /\ (2 <= length (images (session a)))%nat;
  ainv_probing : forall imageUrls intervalInSeconds src,
    assembly a = Some (Probing imageUrls intervalInSeconds src) ->
    imageUrls = map dataUrl (images (session a)) /\
    intervalInSeconds
      = Number.div (gifSpeed (session a)) (Number.of_Z 1000) /\
    exists img0 rest, images (session a) = img0 :: rest /\ src = dataUrl img0;
  ainv_encoding : forall options,
    assembly a = Some (Encoding options) ->
    last (encoderCalls a) = Some options /\
    Gifshot.images options = map dataUrl (images (session a)) /\
    Gifshot.interval options
      = Number.div (gifSpeed (session a)) (Number.of_Z 1000);
  ainv_shown :
    appState (session a) = Animating ->
    exists options,
      last (encoderCalls a) = Some options /\
      Gifshot.images options = map dataUrl (images (session a)) /\
      Gifshot.interval options
        = Number.div (gifSpeed (session a)) (Number.of_Z 1000)
}.

(** A browser whose encoder reports success with an empty image. *)
Definition blankBrowser : Browser :=
  {| readAsDataURL := readAsDataURL sampleBrowser;
     decode := decode sampleBrowser;
     getContext2d := getContext2d sampleBrowser;
     toDataURL := toDataURL sampleBrowser;
     randomUUID := randomUUID sampleBrowser;
     createGIF := fun _ =>
       Some {| Gifshot.error := false; Gifshot.image := "";
               Gifshot.errorMsg := "" |} |}.

(** Two image files, and the events of a user who uploads them and
    assembles the GIF. *)
Definition twoFiles : list File :=
  [ {| name := "a.png"; type := "image/png" |};
    {| name := "big.jpg"; type := "image/jpeg" |} ].

Definition uploadAndCreate : list Event :=
  [ FilesChosen (Some twoFiles); ReaderCompleted 1; ReaderCompleted 0;
    CreateClicked; FirstImageSettled; EncoderAnswered ].

(** The events of a user who uploads the two files twice. *)
Definition twoUploads : list Event :=
  [ FilesChosen (Some twoFiles); ReaderCompleted 1; ReaderCompleted 0;
    FilesChosen (Some twoFiles); ReaderCompleted 0; ReaderCompleted 1 ].

(** The bookkeeping of ids in the component: the frames of the collection
    have distinct ids, each of them a UUID drawn by a batch that has
    settled, and the batch in flight draws after them. *)
Definition app_ids_inv (B : Browser) (a : App) : Prop :=
  NoDup (map id (images (session a))) /\
  (forall f, f ∈ images (session a) ->
     exists k, (k < uuidsDrawn a)%nat /\ id f = randomUUID B k) /\
  (forall fs b, upload a = Some (fs, b) ->
     batch_inv (afterUUIDs (uuidsDrawn a) B) fs b /\
     batch_ids_inv (afterUUIDs (uuidsDrawn a) B) b).

(** ** [AnimationPlayer]: [handleExport] *)

(** A click on the anchor that [handleExport] builds: the download of
    [href] under the file name [download]. *)
Record Download := { href : string; download : string }.

(** The player: its [isExporting] hook, the timeouts set by [handleExport]
    that have not fired yet, and the downloads triggered so far. *)
Record Player := {
  isExporting : bool;
  timers : nat;
  downloads : list Download
}.

Definition initialPlayer : Player :=
  {| isExporting := false; timers := 0; downloads := [] |}.

Definition handleExport (gifUrl : string) (p : Player) : Player :=
  {| isExporting := true;
     timers := S (timers p);
     downloads :=
       downloads p ++ [ {| href := gifUrl; download := "anh_dong.gif" |} ] |}.

(** The callback of [setTimeout(..., 500)]. *)
Definition exportTimeout (p : Player) : Player :=
  match timers p with
  | O => p
  | S n => {| isExporting := false; timers := n; downloads := downloads p |}
  end.

Inductive PlayerEvent := ExportClicked | TimeoutFired.

Definition isTimeoutFired (e : PlayerEvent) : bool :=
  match e with TimeoutFired => true | ExportClicked => false end.

(** The export button is [disabled={isExporting}]. *)
Definition playerStep (gifUrl : string) (p : Player) (e : PlayerEvent) : Player :=
  match e with
  | ExportClicked => if isExporting p then p else handleExport gifUrl p
  | TimeoutFired => exportTimeout p
  end.

(** ** [prompts.ts]: [buildCreativeInstruction] *)

Definition newline : string := String (Ascii.ascii_of_nat 10) EmptyString.
Definition dquote : string := String (Ascii.ascii_of_nat 34) EmptyString.

(** A template hole between double quotes. *)
Definition quoted (s : string) : string := dquote +:+ s +:+ dquote.

(** Truthiness of [string | null]. *)
Definition truthy (o : option string) : bool :=
  match o with
  | Some s => negb (String.eqb s "")
  | None => false
  end.

(** [buildCreativeInstruction]; [toString] is the conversion of a number
    to a string made by a template literal. *)
Definition buildCreativeInstruction (toString : Number.number -> string)
    (animationPrompt : string) (originalImage : option string)
    (frameCount : Number.number) : string :=
  let baseInstruction :=
    "Create a short, " +:+ toString frameCount +:+
    "-frame animation. The movement should be smooth and believable, and the final frame should loop back smoothly to the first." in
  let styleConsistencyInstruction :=
    "It is crucial that all " +:+ toString frameCount +:+
    " frames are in the same, consistent artistic style, matching the provided image." in
  let identityLockInstruction :=
    "Maintain the visual elements of the provided image consistently across all frames. Do not add, remove, or significantly distort UI elements unless specifically asked to by the prompt." in
  let frameDurationInstruction :=
    newline +:+
    "Based on the creative direction, determine the optimal frame duration for the animation." +:+ newline +:+
    "- For slow, deliberate actions (like highlighting), choose a longer duration (e.g., 400-2000ms per frame)." +:+ newline +:+
    "- For fast, quick actions (like clicks), choose a shorter duration (e.g., 80-120ms per frame)." +:+ newline in
  let finish (creativeDirection : string) :=
    newline +:+ creativeDirection +:+ newline +:+
    frameDurationInstruction +:+ newline +:+ newline +:+
    "REQUIRED RESPONSE FORMAT:" +:+ newline +:+
    "Your response MUST contain two parts:" +:+ newline +:+
    "1. A valid JSON object containing a single key: " +:+ quoted "frameDuration" +:+
    ". The value must be a number representing the milliseconds per frame (between 80 and 2000, per instructions above). Do not wrap the JSON in markdown backticks." +:+ newline +:+
    "2. The " +:+ toString frameCount +:+ "-frame sprite sheet image." +:+ newline +:+
    newline +:+
    "Example of the JSON part:" +:+ newline +:+
    "{" +:+ quoted "frameDuration" +:+ ": 150}" +:+ newline in
  if truthy originalImage then
    finish
      (newline +:+
       "CREATIVE DIRECTION (based on user image and prompt):" +:+ newline +:+
       "Animate the provided image based on the following description: " +:+
       quoted animationPrompt +:+ "." +:+ newline +:+
       baseInstruction +:+ newline +:+
       styleConsistencyInstruction +:+ newline +:+
       identityLockInstruction)
  else if negb (String.eqb animationPrompt "") then
    finish
      (newline +:+
       "CREATIVE DIRECTION (based on user prompt):" +:+ newline +:+
       "Create an animation from scratch based on the following description: " +:+
       quoted animationPrompt +:+ "." +:+ newline +:+
       baseInstruction)
  else "".

(** * Properties *)

Lemma append_empty_r (s : string) : s +:+ "" = s.
Proof.
  induction s as [|a s IH]; [reflexivity|].
  change (String a (s +:+ "") = String a s). by rewrite IH.
Qed.

(** ** Back navigation, removal, empty selections *)

(** C8. Clicking Back in the Animating phase moves the phase to Capturing
    and sets the assembled GIF to null; the frame collection and the timing
    parameter (and the other hooks) keep their values. *)
Theorem handleBack_discards_gif (s : Session) :
  appState s = Animating ->
  appState (handleBack s) = Capturing /\
  generatedGif (handleBack s) = None /\
  images (handleBack s) = images s /\
  gifSpeed (handleBack s) = gifSpeed s /\
  loading (handleBack s) = loading s /\
  error (handleBack s) = error s.
Proof. intros _. unfold handleBack. simpl. tauto. Qed.

Lemma handleBack_discards_gif_witness :
  appState animating = Animating /\
  appState (handleBack animating) = Capturing /\
  generatedGif (handleBack animating) = None /\
  images (handleBack animating) = [frameA; frameB; frameC].
Proof.
  split; [reflexivity|].
  destruct (handleBack_discards_gif animating) as (H1 & H2 & H3 & _);
    [reflexivity|].
  split; [exact H1|]. split; [exact H2|]. exact H3.
Defined.

Lemma filter_id_absent (i : string) (l : list Frame) :
  (forall img, img ∈ l -> id img <> i) ->
  filter (fun img => id img <> i) l = l.
Proof.
  induction l as [|x l IH]; intros H; [reflexivity|].
  rewrite filter_cons_True by (apply H; left).
  f_equal. apply IH. intros img Hin. apply H. by right.
Qed.

(** C9. [remove(id)] keeps exactly the frames whose id differs, in their
    order (so a frame with that id is removed if present), changes nothing
    else in the session, and when no frame has that id the session is left
    exactly as it was; the handler is total, so no error is raised. *)
Theorem handleRemoveImage_spec (i : string) (s : Session) :
  images (handleRemoveImage i s) = filter (fun img => id img <> i) (images s) /\
  (forall img, img ∈ images (handleRemoveImage i s) <->
               img ∈ images s /\ id img <> i) /\
  sublist (images (handleRemoveImage i s)) (images s) /\
  ((forall img, img ∈ images s -> id img <> i) -> handleRemoveImage i s = s) /\
  appState (handleRemoveImage i s) = appState s /\
  generatedGif (handleRemoveImage i s) = generatedGif s /\
  loading (handleRemoveImage i s) = loading s /\
  error (handleRemoveImage i s) = error s /\
  gifSpeed (handleRemoveImage i s) = gifSpeed s.
Proof.
  unfold handleRemoveImage, setImages; simpl.
  split; [reflexivity|]. split.
  { intros img. rewrite list_elem_of_filter. tauto. }
  split; [apply sublist_filter; apply _|].
  split; [|tauto].
  intros Habs. rewrite filter_id_absent by exact Habs. by destruct s.
Qed.

Lemma handleRemoveImage_spec_witness :
  images (handleRemoveImage "b" threeFrames) = [frameA; frameC] /\
  handleRemoveImage "zzz" threeFrames = threeFrames.
Proof.
  destruct (handleRemoveImage_spec "b" threeFrames) as (H1 & _).
  destruct (handleRemoveImage_spec "zzz" threeFrames) as (_ & _ & _ & H4 & _).
  split.
  - rewrite H1. reflexivity.
  - apply H4. intros img Hin.
    apply list_elem_of_In in Hin. simpl in Hin.
    destruct Hin as [<-|[<-|[<-|[]]]]; discriminate.
Defined.

(** C10. A file selection with no file (or no file list at all) leaves the
    session exactly as it was: loading is not set, an existing error
    message is kept, frames, timing and phase are unchanged. *)
Theorem handleFileChange_no_files (B : Browser) (files : option (list File))
    (sched : list nat) (s : Session) :
  files = None \/ files = Some [] ->
  handleFileChange B files sched s = s.
Proof. intros [-> | ->]; reflexivity. Qed.

Lemma handleFileChange_no_files_witness :
  handleFileChange sampleBrowser (Some []) [] withError = withError /\
  error (handleFileChange sampleBrowser (Some []) [] withError) = Some "earlier" /\
  loading (handleFileChange sampleBrowser (Some []) [] withError) = false.
Proof.
  assert (H : handleFileChange sampleBrowser (Some []) [] withError = withError).
  { apply handleFileChange_no_files. right. reflexivity. }
  rewrite H. split; [reflexivity|]. split; reflexivity.
Defined.

(** ** Assembly *)

Lemma handleCreateGif_begin_ok (s : Session) :
  (2 <= length (images s))%nat ->
  handleCreateGif_begin s = (setError None (setAppState Processing s), true).
Proof.
  intros H. unfold handleCreateGif_begin.
  destruct (Nat.ltb_spec (length (images s)) 2); [lia|reflexivity].
Qed.

Lemma handleCreateGif_decoded (B : Browser) (s : Session) (img0 : Frame)
    (rest : list Frame) (firstImage : Image) :
  images s = img0 :: rest ->
  (2 <= length (images s))%nat ->
  decode B (dataUrl img0) = Some firstImage ->
  handleCreateGif B s =
    match createGIF B (optionsFor s firstImage) with
    | Some obj =>
        (createGIF_callback obj (setError None (setAppState Processing s)),
         [optionsFor s firstImage])
    | None =>
        (setError None (setAppState Processing s), [optionsFor s firstImage])
    end.
Proof.
  intros Himg Hlen Hdec. unfold handleCreateGif.
  rewrite handleCreateGif_begin_ok by exact Hlen.
  rewrite Himg, Hdec. unfold firstImage_onload, optionsFor.
  rewrite Himg. reflexivity.
Qed.

(** C5, as the specification states it, fails: with three frames of which
    the first cannot be decoded, triggering assembly does not call the
    encoder at all. *)
Lemma undecodable_first_frame_no_encoder_call :
  (2 <= length (images undecodableFirstFrame))%nat /\
  decode sampleBrowser "data:corrupt.png" = None /\
  snd (handleCreateGif sampleBrowser undecodableFirstFrame) = [] /\
  length (snd (handleCreateGif sampleBrowser undecodableFirstFrame)) <> 1%nat.
Proof.
  split; [simpl; lia|]. split; [reflexivity|]. split; [reflexivity|].
  vm_compute. discriminate.
Qed.

(** C5, amended. With at least two frames whose first one decodes,
    triggering assembly calls the encoder exactly once, with the data URLs
    of the frames in collection order, the interval [gifSpeed / 1000], two
    workers, and the width and height of the decoded first frame. *)
Theorem handleCreateGif_calls_encoder_once (B : Browser) (s : Session)
    (img0 : Frame) (rest : list Frame) (firstImage : Image) :
  images s = img0 :: rest ->
  (2 <= length (images s))%nat ->
  decode B (dataUrl img0) = Some firstImage ->
  snd (handleCreateGif B s) =
    [ {| Gifshot.images := map dataUrl (images s);
         Gifshot.interval := Number.div (gifSpeed s) (Number.of_Z 1000);
         Gifshot.numWorkers := 2;
         Gifshot.gifWidth := naturalWidth firstImage;
         Gifshot.gifHeight := naturalHeight firstImage |} ].
Proof.
  intros Himg Hlen Hdec.
  rewrite (handleCreateGif_decoded B s img0 rest firstImage Himg Hlen Hdec).
  destruct (createGIF B (optionsFor s firstImage)); reflexivity.
Qed.

(** The quotient 100 / 1000 is the binary64 number written 0.1: its
    mantissa is within half a unit of 2^56 / 10. *)
Example interval_of_100ms :
  Number.div (Number.of_Z 100) (Number.of_Z 1000)
    = S754_finite false 7205759403792794 (-56) /\
  Z.abs (10 * 7205759403792794 - 2 ^ 56) <= 5.
Proof. split; [reflexivity | vm_compute; discriminate]. Qed.

Lemma handleCreateGif_calls_encoder_once_witness :
  snd (handleCreateGif sampleBrowser threeFrames) =
    [ {| Gifshot.images := ["png:data:a.png"; "png:data:b.png"; "png:data:c.png"];
         Gifshot.interval := S754_finite false 7205759403792794 (-56);
         Gifshot.numWorkers := 2;
         Gifshot.gifWidth := 800;
         Gifshot.gifHeight := 600 |} ].
Proof.
  rewrite (handleCreateGif_calls_encoder_once sampleBrowser threeFrames
             frameA [frameB; frameC]
             {| naturalWidth := 800; naturalHeight := 600 |});
    [reflexivity | reflexivity | simpl; lia | reflexivity].
Defined.

(** C6. With fewer than two frames, triggering assembly only sets the
    validation message: the encoder is not called and the phase, the
    frames and every other hook keep their values. *)
Theorem handleCreateGif_insufficient_frames (B : Browser) (s : Session) :
  (length (images s) < 2)%nat ->
  snd (handleCreateGif B s) = [] /\
  fst (handleCreateGif B s) =
    setError (Some "Vui lòng tải lên ít nhất 2 ảnh để tạo GIF.") s /\
  appState (fst (handleCreateGif B s)) = appState s /\
  images (fst (handleCreateGif B s)) = images s.
Proof.
  intros H. unfold handleCreateGif, handleCreateGif_begin.
  destruct (Nat.ltb_spec (length (images s)) 2); [|lia].
  simpl. tauto.
Qed.

Lemma handleCreateGif_insufficient_frames_witness :
  snd (handleCreateGif sampleBrowser oneFrame) = [] /\
  appState (fst (handleCreateGif sampleBrowser oneFrame)) = Capturing /\
  error (fst (handleCreateGif sampleBrowser oneFrame)) =
    Some "Vui lòng tải lên ít nhất 2 ảnh để tạo GIF.".
Proof.
  destruct (handleCreateGif_insufficient_frames sampleBrowser oneFrame)
    as (H1 & H2 & H3 & _); [simpl; lia|].
  split; [exact H1|]. split; [rewrite H3; reflexivity|].
  rewrite H2. reflexivity.
Defined.

(** C7. When the encoder answers [{error: true, errorMsg: m}], the [error]
    hook holds the fixed prefix followed by [m], so it contains [m]; the
    phase ends in Capturing, from which the user can retry; the frame
    collection is the one assembly started from.  The message is not
    user-visible: the page rendered afterwards is the capture view the
    session had before the click, which has no place for a message, and it
    is the same page whatever the hook holds. *)
Theorem handleCreateGif_encoder_error (B : Browser) (s : Session)
    (img0 : Frame) (rest : list Frame) (firstImage : Image)
    (obj : Gifshot.Result) :
  images s = img0 :: rest ->
  (2 <= length (images s))%nat ->
  decode B (dataUrl img0) = Some firstImage ->
  createGIF B (optionsFor s firstImage) = Some obj ->
  Gifshot.error obj = true ->
  error (fst (handleCreateGif B s)) =
    Some ("Tạo GIF thất bại: " +:+ Gifshot.errorMsg obj) /\
  (exists stored, error (fst (handleCreateGif B s)) = Some stored /\
                  contains (Gifshot.errorMsg obj) stored) /\
  appState (fst (handleCreateGif B s)) = Capturing /\
  images (fst (handleCreateGif B s)) = images s /\
  renderContent (fst (handleCreateGif B s)) =
    CaptureView (images s) (gifSpeed s) (loading s) (isCreateDisabled s) /\
  (forall m' : option string,
     renderContent (setError m' (fst (handleCreateGif B s))) =
     renderContent (fst (handleCreateGif B s))).
Proof.
  intros Himg Hlen Hdec Henc Herr.
  rewrite (handleCreateGif_decoded B s img0 rest firstImage Himg Hlen Hdec).
  rewrite Henc. unfold createGIF_callback. rewrite Herr. simpl.
  split; [reflexivity|]. split.
  { eexists. split; [reflexivity|].
    exists "Tạo GIF thất bại: ", "".
    by rewrite append_empty_r. }
  repeat split; reflexivity.
Qed.

Lemma handleCreateGif_encoder_error_witness :
  error (fst (handleCreateGif oomBrowser threeFrames)) =
    Some "Tạo GIF thất bại: oom" /\
  appState (fst (handleCreateGif oomBrowser threeFrames)) = Capturing /\
  images (fst (handleCreateGif oomBrowser threeFrames)) =
    [frameA; frameB; frameC] /\
  renderContent (fst (handleCreateGif oomBrowser threeFrames)) =
    CaptureView [frameA; frameB; frameC] (Number.of_Z 100) false false /\
  renderContent threeFrames =
    CaptureView [frameA; frameB; frameC] (Number.of_Z 100) false false.
Proof.
  destruct (handleCreateGif_encoder_error oomBrowser threeFrames
              frameA [frameB; frameC]
              {| naturalWidth := 800; naturalHeight := 600 |}
              {| Gifshot.error := true; Gifshot.image := "";
                 Gifshot.errorMsg := "oom" |})
    as (H1 & _ & H3 & H4 & H5 & _);
    [reflexivity | simpl; lia | reflexivity | reflexivity | reflexivity |].
  split; [exact H1|]. split; [exact H3|]. split; [exact H4|].
  split; [exact H5 | reflexivity].
Defined.

(** C3, as the specification states it, fails: with an encoder that
    reports an error the phase ends in Capturing, not in Error. *)
Lemma assembly_failure_not_Error_phase :
  assemblyFails oomBrowser threeFrames = true /\
  appState (fst (handleCreateGif_begin threeFrames)) = Processing /\
  appState (fst (handleCreateGif oomBrowser threeFrames)) = Capturing /\
  appState (fst (handleCreateGif oomBrowser threeFrames)) <> Error.
Proof. repeat split; try reflexivity. vm_compute. discriminate. Qed.

(** C3, amended. When assembly fails (the encoder reports an error, or the
    first frame cannot be decoded), the phase goes from Processing back to
    Capturing, an error message is set and the frames are kept. *)
Theorem handleCreateGif_failure_to_Capturing (B : Browser) (s : Session) :
  (2 <= length (images s))%nat ->
  assemblyFails B s = true ->
  appState (fst (handleCreateGif_begin s)) = Processing /\
  appState (fst (handleCreateGif B s)) = Capturing /\
  is_Some (error (fst (handleCreateGif B s))) /\
  images (fst (handleCreateGif B s)) = images s.
Proof.
  intros Hlen Hfail.
  rewrite handleCreateGif_begin_ok by exact Hlen.
  split; [reflexivity|].
  unfold assemblyFails in Hfail.
  destruct (images s) as [|img0 rest] eqn:Himg; [discriminate|].
  destruct (decode B (dataUrl img0)) as [firstImage|] eqn:Hdec.
  - rewrite <- Himg in Hlen.
    rewrite (handleCreateGif_decoded B s img0 rest firstImage Himg Hlen Hdec).
    destruct (createGIF B (optionsFor s firstImage)) as [obj|]; [|discriminate].
    unfold createGIF_callback. rewrite Hfail. simpl. rewrite Himg. eauto.
  - unfold handleCreateGif. rewrite <- Himg in Hlen.
    rewrite handleCreateGif_begin_ok by exact Hlen.
    rewrite Himg, Hdec. simpl. rewrite Himg. eauto.
Qed.

Lemma handleCreateGif_failure_to_Capturing_witness :
  appState (fst (handleCreateGif oomBrowser threeFrames)) = Capturing /\
  images (fst (handleCreateGif oomBrowser threeFrames)) = [frameA; frameB; frameC].
Proof.
  destruct (handleCreateGif_failure_to_Capturing oomBrowser threeFrames)
    as (_ & H2 & _ & H4); [simpl; lia | reflexivity |].
  split; [exact H2 | exact H4].
Defined.

(** ** Upload batches *)

Section Batches.
Local Open Scope nat_scope.
Variable B : Browser.
Variable files : list File.

Lemma pending_insert (fl : list bool) (i : nat) :
  fl !! i = Some false -> pending fl = S (pending (<[i := true]> fl)).
Proof.
  unfold pending. revert i.
  induction fl as [|x fl IH]; intros [|i] H; simplify_eq/=.
  - by rewrite filter_cons_False by discriminate.
  - rewrite !filter_cons. destruct (decide (x = false)); simpl; auto.
Qed.

Lemma pending_all_fired (fl : list bool) :
  (forall i, i < length fl -> fl !! i = Some true) -> pending fl = 0.
Proof.
  unfold pending. induction fl as [|x fl IH]; intros H; [reflexivity|].
  specialize (H 0 ltac:(simpl; lia)) as H0. simplify_eq/=.
  rewrite filter_cons_False by discriminate. apply IH.
  intros i Hi. apply (H (S i)). simpl. lia.
Qed.

Lemma pending_replicate (n : nat) : pending (replicate n false) = n.
Proof.
  unfold pending. induction n as [|n IH]; [reflexivity|].
  simpl. f_equal. exact IH.
Qed.

Lemma pending_unfired (fl : list bool) (i : nat) :
  fl !! i = Some false -> 0 < pending fl.
Proof. intros H. rewrite (pending_insert fl i H). lia. Qed.

Lemma newBatch_inv : batch_inv B files (newBatch (length files)).
Proof.
  split; simpl.
  - apply length_replicate.
  - apply length_replicate.
  - unfold pending. etrans; [apply length_filter|]. by rewrite length_replicate.
  - discriminate.
  - discriminate.
  - intros i file e _ _ H. apply lookup_replicate in H as [? _]. discriminate.
Qed.

Lemma settle_inv (b : Batch) (i : nat) :
  batch_inv B files b -> batch_inv B files (settle B files b i).
Proof.
  intros [Hfl Hvl Hp Hres Hrej Hseen]. unfold settle.
  destruct (files !! i) as [file|] eqn:Hfile; [|by split].
  destruct (fired b !! i) as [[|]|] eqn:Hfi; [by split| |by split].
  pose proof (pending_insert _ _ Hfi) as Hpi.
  assert (Hother : forall j, j <> i ->
            <[i:=true]> (fired b) !! j = Some true -> fired b !! j = Some true).
  { intros j Hj. by rewrite list_lookup_insert_ne. }
  destruct (filePromise B file) as [[[p|]|err]|] eqn:Hprom; [| | |by split].
  - (* resolved with a frame *)
    split; simpl.
    + by rewrite length_insert.
    + by rewrite length_insert.
    + lia.
    + intros vs. destruct (Nat.eqb_spec (pred (remaining b)) 0) as [Hz|Hz].
      * destruct (outcome b) as [[vs'|e']|] eqn:Ho; intros ?; simplify_eq.
        -- destruct (Hres _ eq_refl). lia.
        -- done.
      * intros Ho. destruct (Hres _ Ho). lia.
    + intros e. destruct (Nat.eqb_spec (pred (remaining b)) 0) as [Hz|Hz].
      * destruct (outcome b) as [[vs'|e']|] eqn:Ho; intros ?; simplify_eq.
        by apply Hrej.
      * apply Hrej.
    + intros j file' e Hj Hpj Hfj.
      destruct (decide (j = i)) as [->|Hne]; [congruence|].
      destruct (Hseen j file' e Hj Hpj (Hother j Hne Hfj)) as [e' He'].
      exists e'. rewrite He'. by destruct (Nat.eqb _ _).
  - (* resolved with null *)
    split; simpl.
    + by rewrite length_insert.
    + by rewrite length_insert.
    + lia.
    + intros vs. destruct (Nat.eqb_spec (pred (remaining b)) 0) as [Hz|Hz].
      * destruct (outcome b) as [[vs'|e']|] eqn:Ho; intros ?; simplify_eq.
        -- destruct (Hres _ eq_refl). lia.
        -- done.
      * intros Ho. destruct (Hres _ Ho). lia.
    + intros e. destruct (Nat.eqb_spec (pred (remaining b)) 0) as [Hz|Hz].
      * destruct (outcome b) as [[vs'|e']|] eqn:Ho; intros ?; simplify_eq.
        by apply Hrej.
      * apply Hrej.
    + intros j file' e Hj Hpj Hfj.
      destruct (decide (j = i)) as [->|Hne]; [congruence|].
      destruct (Hseen j file' e Hj Hpj (Hother j Hne Hfj)) as [e' He'].
      exists e'. rewrite He'. by destruct (Nat.eqb _ _).
  - (* rejected *)
    split; simpl.
    + by rewrite length_insert.
    + done.
    + lia.
    + intros vs. destruct (outcome b) as [[vs'|e']|] eqn:Ho; intros ?; simplify_eq.
      destruct (Hres _ eq_refl). lia.
    + intros e. destruct (outcome b) as [[vs'|e']|] eqn:Ho; intros ?; simplify_eq.
      * by apply Hrej.
      * eauto.
    + intros j file' e _ _ _.
      destruct (outcome b) as [[vs'|e']|] eqn:Ho; [|eauto|eauto].
      destruct (Hres _ eq_refl). lia.
Qed.

Lemma foldl_settle_inv (order : list nat) (b : Batch) :
  batch_inv B files b -> batch_inv B files (foldl (settle B files) b order).
Proof.
  revert b. induction order as [|i order IH]; intros b Hb; [exact Hb|].
  simpl. apply IH. by apply settle_inv.
Qed.

Lemma settle_fired_mono (b : Batch) (i j : nat) :
  fired b !! j = Some true -> fired (settle B files b i) !! j = Some true.
Proof.
  intros Hj. unfold settle.
  destruct (files !! i) as [file|]; [|done].
  destruct (fired b !! i) as [[|]|] eqn:Hfi; [done| |done].
  assert (Hne : i <> j) by congruence.
  destruct (filePromise B file) as [[[p|]|err]|]; simpl;
    rewrite ?list_lookup_insert_ne by done; done.
Qed.

Lemma settle_fires (b : Batch) (i : nat) (file : File) :
  length (fired b) = length files ->
  files !! i = Some file -> is_Some (filePromise B file) ->
  fired (settle B files b i) !! i = Some true.
Proof.
  intros Hlen Hfile [r Hr]. unfold settle. rewrite Hfile.
  assert (Hi : i < length (fired b)).
  { rewrite Hlen. by eapply lookup_lt_Some. }
  destruct (lookup_lt_is_Some_2 _ _ Hi) as [[|] Hfi]; rewrite Hfi; [done|].
  rewrite Hr. destruct r as [[p|]|err]; simpl;
    by rewrite list_lookup_insert_eq.
Qed.

Lemma foldl_settle_fired_mono (order : list nat) (b : Batch) (j : nat) :
  fired b !! j = Some true ->
  fired (foldl (settle B files) b order) !! j = Some true.
Proof.
  revert b. induction order as [|i order IH]; intros b Hj; [exact Hj|].
  simpl. apply IH. by apply settle_fired_mono.
Qed.

Lemma foldl_settle_fires (order : list nat) (b : Batch) (i : nat) (file : File) :
  batch_inv B files b -> i ∈ order ->
  files !! i = Some file -> is_Some (filePromise B file) ->
  fired (foldl (settle B files) b order) !! i = Some true.
Proof.
  revert b. induction order as [|j order IH]; intros b Hb Hin Hfile Hp.
  - by apply elem_of_nil in Hin.
  - simpl. apply elem_of_cons in Hin as [->|Hin].
    + apply foldl_settle_fired_mono.
      eapply settle_fires; [apply Hb | done | done].
    + apply IH; [by apply settle_inv | done | done | done].
Qed.

(** A failure that is delivered rejects the combined promise, with the
    error of one of the files of the batch. *)
Lemma runBatch_rejected (sched : list nat) (k : nat) (file : File) (e : Thrown) :
  files !! k = Some file -> filePromise B file = Some (Reject e) ->
  k ∈ sched ->
  exists e' j file',
    outcome (runBatch B files sched) = Some (Reject e') /\
    files !! j = Some file' /\ filePromise B file' = Some (Reject e').
Proof.
  intros Hfile Hp Hin. unfold runBatch.
  set (order := nonImages files 0 ++ sched).
  pose proof (foldl_settle_inv order _ newBatch_inv) as Hinv.
  assert (Hfired : fired (foldl (settle B files) (newBatch (length files)) order)
                     !! k = Some true).
  { eapply foldl_settle_fires; [apply newBatch_inv | | done | by rewrite Hp].
    apply elem_of_app. by right. }
  destruct (inv_failure_seen B files _ Hinv k file e Hfile Hp Hfired) as [e' He'].
  destruct (inv_rejected B files _ Hinv e' He') as (j & file' & Hj & Hpj).
  eauto 10.
Qed.

(** Every rejection of a file promise carries an [Error] object with one
    of four fixed messages. *)
Lemma filePromise_reject_message (file : File) (e : Thrown) :
  filePromise B file = Some (Reject e) ->
  exists m, e = ErrorObj m /\
    m ∈ ["Không thể đọc tệp đã chọn.";
         "Failed to load image for processing.";
         "Could not get canvas context.";
         "Could not get canvas context for resizing."].
Proof.
  unfold filePromise, processImage, processImage_canvas.
  destruct (negb _); [discriminate|].
  destruct (readAsDataURL B file) as [url|].
  - destruct (String.eqb url ""); [discriminate|].
    destruct (decode B url) as [img|].
    + destruct (_ && _).
      * destruct (getContext2d B _ _); intros ?; simplify_eq;
          eexists; (split; [reflexivity|]); apply list_elem_of_In; simpl; tauto.
      * destruct (resized _ _ _) as [cw ch].
        destruct (getContext2d B cw ch); intros ?; simplify_eq;
          eexists; (split; [reflexivity|]); apply list_elem_of_In; simpl; tauto.
    + intros ?; simplify_eq. eexists; (split; [reflexivity|]); apply list_elem_of_In; simpl; tauto.
  - intros ?; simplify_eq. eexists; (split; [reflexivity|]); apply list_elem_of_In; simpl; tauto.
Qed.
End Batches.

(** C2. When a file of the batch fails to read or to decode (and that
    failure is delivered), the upload leaves the frame collection as it
    was, clears the loading flag and stays in Capturing, whatever the order
    of completion and whatever the other files do.  The message of a failed
    file of the batch is stored in the [error] hook, but it is not
    surfaced: the page rendered afterwards is the capture view of the
    frames held before, which has no place for a message, and it is the
    same page whatever the hook holds. *)
Theorem handleFileChange_failure_aborts_batch (B : Browser) (files : list File)
    (sched : list nat) (s : Session) (k : nat) (file : File) (e : Thrown) :
  files !! k = Some file ->
  filePromise B file = Some (Reject e) ->
  k ∈ sched ->
  appState s = Capturing ->
  images (handleFileChange B (Some files) sched s) = images s /\
  appState (handleFileChange B (Some files) sched s) = Capturing /\
  loading (handleFileChange B (Some files) sched s) = false /\
  (exists m j file',
     error (handleFileChange B (Some files) sched s) = Some m /\ m <> "" /\
     files !! j = Some file' /\
     filePromise B file' = Some (Reject (ErrorObj m))) /\
  generatedGif (handleFileChange B (Some files) sched s) = generatedGif s /\
  gifSpeed (handleFileChange B (Some files) sched s) = gifSpeed s /\
  renderContent (handleFileChange B (Some files) sched s) =
    CaptureView (images s) (gifSpeed s) false (length (images s) <? 2)%nat /\
  (forall m' : option string,
     renderContent (setError m' (handleFileChange B (Some files) sched s)) =
     renderContent (handleFileChange B (Some files) sched s)).
Proof.
  intros Hfile Hp Hin Hphase.
  destruct (runBatch_rejected B files sched k file e Hfile Hp Hin)
    as (e' & j & file' & Hout & Hj & Hpj).
  destruct (filePromise_reject_message B file' e' Hpj) as (m & -> & Hm).
  unfold handleFileChange.
  destruct files as [|f0 files']; [by rewrite lookup_nil in Hfile|].
  rewrite Hout. simpl.
  split; [reflexivity|]. split; [exact Hphase|]. split; [reflexivity|].
  split.
  { exists m, j, file'. repeat split; try done.
    intros ->. apply list_elem_of_In in Hm. simpl in Hm.
    repeat (destruct Hm as [Hm|Hm]; [discriminate|]). exact Hm. }
  split; [reflexivity|]. split; [reflexivity|].
  unfold renderContent, isCreateDisabled. simpl. rewrite Hphase.
  split; [by rewrite orb_false_r | reflexivity].
Qed.

Lemma handleFileChange_failure_aborts_batch_witness :
  images (handleFileChange sampleBrowser
            (Some [ {| name := "a.png"; type := "image/png" |};
                    {| name := "corrupt.png"; type := "image/png" |};
                    {| name := "c.png"; type := "image/png" |} ])
            [2; 0; 1]%nat threeFrames) = [frameA; frameB; frameC] /\
  error (handleFileChange sampleBrowser
            (Some [ {| name := "a.png"; type := "image/png" |};
                    {| name := "corrupt.png"; type := "image/png" |};
                    {| name := "c.png"; type := "image/png" |} ])
            [2; 0; 1]%nat threeFrames) = Some "Failed to load image for processing." /\
  renderContent (handleFileChange sampleBrowser
            (Some [ {| name := "a.png"; type := "image/png" |};
                    {| name := "corrupt.png"; type := "image/png" |};
                    {| name := "c.png"; type := "image/png" |} ])
            [2; 0; 1]%nat threeFrames) =
    CaptureView [frameA; frameB; frameC] (Number.of_Z 100) false false /\
  renderContent threeFrames =
    CaptureView [frameA; frameB; frameC] (Number.of_Z 100) false false.
Proof.
  destruct (handleFileChange_failure_aborts_batch sampleBrowser
              [ {| name := "a.png"; type := "image/png" |};
                {| name := "corrupt.png"; type := "image/png" |};
                {| name := "c.png"; type := "image/png" |} ]
              [2; 0; 1]%nat threeFrames 1%nat
              {| name := "corrupt.png"; type := "image/png" |}
              (ErrorObj "Failed to load image for processing."))
    as (H1 & _ & _ & _ & _ & _ & H7 & _);
    [reflexivity | reflexivity | | reflexivity |].
  - apply list_elem_of_In. simpl. tauto.
  - split; [exact H1|]. split; [reflexivity|].
    split; [exact H7 | reflexivity].
Defined.

(** *** Batches in which every normalisation succeeds *)

Section SuccessfulBatch.
Local Open Scope nat_scope.
Variable B : Browser.
Variable files : list File.
Hypothesis files_nonempty : 0 < length files.
Hypothesis all_resolve : forall i file,
  files !! i = Some file -> exists v, filePromise B file = Some (Resolve v).

Lemma newBatch_success_inv : success_inv B files (newBatch (length files)).
Proof.
  split; simpl.
  - apply length_replicate.
  - apply length_replicate.
  - by rewrite pending_replicate.
  - done.
  - lia.
  - intros i file _ H. apply lookup_replicate in H as [? _]. discriminate.
Qed.

Lemma settle_success_inv (b : Batch) (i : nat) :
  success_inv B files b -> success_inv B files (settle B files b i).
Proof.
  intros [Hfl Hvl Hc Hw Hd Hs]. unfold settle.
  destruct (files !! i) as [file|] eqn:Hfile; [|by split].
  destruct (fired b !! i) as [[|]|] eqn:Hfi; [by split| |by split].
  pose proof (pending_insert _ _ Hfi) as Hpi.
  assert (Hi : i < length (values b)).
  { rewrite Hvl. by eapply lookup_lt_Some. }
  destruct (all_resolve i file Hfile) as [v Hv].
  assert (Hslots : forall (x : option Frame) j file',
    slot_ok B file x -> files !! j = Some file' ->
    <[i:=true]> (fired b) !! j = Some true ->
    exists v', <[i:=Some x]> (values b) !! j = Some (Some v') /\ slot_ok B file' v').
  { intros x j file' Hx Hj Hfj. destruct (decide (j = i)) as [->|Hne].
    - rewrite list_lookup_insert_eq by done. simplify_eq. eauto.
    - rewrite list_lookup_insert_ne in Hfj by done.
      rewrite list_lookup_insert_ne by done. eauto. }
  rewrite Hv. destruct v as [p|].
  - split; simpl.
    + by rewrite length_insert.
    + by rewrite length_insert.
    + lia.
    + intros Hpos. destruct (Nat.eqb_spec (pred (remaining b)) 0); [lia|].
      apply Hw. lia.
    + intros Hz. rewrite Hz. simpl. rewrite Hw by lia. done.
    + intros j file'. apply Hslots. unfold slot_ok. rewrite Hv. eauto.
  - split; simpl.
    + by rewrite length_insert.
    + by rewrite length_insert.
    + lia.
    + intros Hpos. destruct (Nat.eqb_spec (pred (remaining b)) 0); [lia|].
      apply Hw. lia.
    + intros Hz. rewrite Hz. simpl. rewrite Hw by lia. done.
    + intros j file'. apply Hslots. unfold slot_ok. by rewrite Hv.
Qed.

Lemma foldl_settle_success_inv (order : list nat) (b : Batch) :
  success_inv B files b -> success_inv B files (foldl (settle B files) b order).
Proof.
  revert b. induction order as [|i order IH]; intros b Hb; [exact Hb|].
  simpl. apply IH. by apply settle_success_inv.
Qed.

Lemma nonImages_elem (fs : list File) (k i : nat) (file : File) :
  fs !! i = Some file -> String.prefix "image/" (type file) = false ->
  k + i ∈ nonImages fs k.
Proof.
  revert k i. induction fs as [|f fs IH]; intros k [|i] Hi Hp; simplify_eq/=.
  - rewrite Hp. simpl. rewrite Nat.add_0_r. by left.
  - replace (k + S i) with (S k + i) by lia.
    destruct (negb _); [right|]; by apply IH.
Qed.

(** The data URLs of the frames kept from the resolved array are those
    of the files, in the order of the files. *)
Lemma newImages_in_order (fs : list File) (vs : list (option (option Frame))) :
  Forall2 (fun file slot => exists v, slot = Some v /\ slot_ok B file v) fs vs ->
  map dataUrl (newImages vs) = normalizedInOrder B fs.
Proof.
  unfold newImages, normalizedInOrder.
  induction 1 as [|file slot fs vs (v & -> & Hv) _ IH]; [reflexivity|].
  unfold slot_ok in Hv. simpl.
  destruct (filePromise B file) as [[[url|]|]|]; try done.
  - destruct Hv as [k ->]. simpl. f_equal. exact IH.
  - subst v. exact IH.
Qed.

(** When every reader of the batch completes, in any order, the combined
    promise resolves and the frames it yields are in selection order. *)
Lemma runBatch_resolved (sched : list nat) :
  (forall i file, files !! i = Some file ->
     String.prefix "image/" (type file) = true -> i ∈ sched) ->
  exists vs, outcome (runBatch B files sched) = Some (Resolve vs) /\
             map dataUrl (newImages vs) = normalizedInOrder B files.
Proof.
  intros Hsched. unfold runBatch.
  set (order := nonImages files 0 ++ sched).
  pose proof (foldl_settle_success_inv order _ newBatch_success_inv) as Hinv.
  set (b := foldl (settle B files) (newBatch (length files)) order) in *.
  assert (Hall : forall i file, files !! i = Some file -> fired b !! i = Some true).
  { intros i file Hfile. destruct (all_resolve i file Hfile) as [v Hv].
    eapply foldl_settle_fires; [apply newBatch_inv| |done|by rewrite Hv].
    apply elem_of_app.
    destruct (String.prefix "image/" (type file)) eqn:Hp.
    - right. by eapply Hsched.
    - left. by apply (nonImages_elem files 0 i file). }
  assert (Hzero : remaining b = 0).
  { rewrite (sinv_count B files _ Hinv). apply pending_all_fired.
    intros i Hi. rewrite (sinv_fired_len B files _ Hinv) in Hi.
    destruct (lookup_lt_is_Some_2 _ _ Hi) as [file Hfile]. eauto. }
  exists (values b). split; [by apply (sinv_done B files _ Hinv)|].
  apply newImages_in_order.
  apply Forall2_same_length_lookup_2; [by rewrite (sinv_values_len B files _ Hinv)|].
  intros i file slot Hfile Hslot.
  destruct (sinv_slots B files _ Hinv i file Hfile (Hall i file Hfile)) as (v & Hv & Hok).
  exists v. split; [congruence | done].
Qed.
End SuccessfulBatch.

(** C4. When every normalisation of a batch succeeds and every reader
    completes, in whatever order, the new frames come after all the frames
    already in the collection and their images are those of the files in
    selection order; loading is cleared, no error is shown and the phase
    and the other hooks keep their values. *)
Theorem handleFileChange_appends_in_selection_order (B : Browser)
    (files : list File) (sched : list nat) (s : Session) :
  files <> [] ->
  (forall i file, files !! i = Some file ->
     exists v, filePromise B file = Some (Resolve v)) ->
  (forall i file, files !! i = Some file ->
     String.prefix "image/" (type file) = true -> i ∈ sched) ->
  exists new,
    images (handleFileChange B (Some files) sched s) = images s ++ new /\
    map dataUrl new = normalizedInOrder B files /\
    loading (handleFileChange B (Some files) sched s) = false /\
    error (handleFileChange B (Some files) sched s) = None /\
    appState (handleFileChange B (Some files) sched s) = appState s /\
    generatedGif (handleFileChange B (Some files) sched s) = generatedGif s /\
    gifSpeed (handleFileChange B (Some files) sched s) = gifSpeed s.
Proof.
  intros Hne Hall Hsched.
  assert (Hlen : (0 < length files)%nat).
  { destruct files; [done | simpl; lia]. }
  destruct (runBatch_resolved B files Hlen Hall sched Hsched) as (vs & Hout & Hvs).
  exists (newImages vs). unfold handleFileChange.
  destruct files as [|f0 files']; [done|].
  rewrite Hout. simpl. tauto.
Qed.

Lemma handleFileChange_appends_in_selection_order_witness :
  map dataUrl
    (images (handleFileChange sampleBrowser
               (Some [ {| name := "a.png"; type := "image/png" |};
                       {| name := "notes.txt"; type := "text/plain" |};
                       {| name := "big.jpg"; type := "image/jpeg" |} ])
               [2; 0]%nat threeFrames))
  = ["png:data:a.png"; "png:data:b.png"; "png:data:c.png";
     "png:data:a.png"; "png:data:big.jpg"].
Proof.
  destruct (handleFileChange_appends_in_selection_order sampleBrowser
              [ {| name := "a.png"; type := "image/png" |};
                {| name := "notes.txt"; type := "text/plain" |};
                {| name := "big.jpg"; type := "image/jpeg" |} ]
              [2; 0]%nat threeFrames)
    as (new & H1 & H2 & _).
  - discriminate.
  - intros [|[|[|i]]] file Hfile; simpl in Hfile; simplify_eq;
      eexists; reflexivity.
  - intros [|[|[|i]]] file Hfile Himg; simpl in Hfile; simplify_eq;
      apply list_elem_of_In; simpl; tauto.
  - rewrite H1, map_app, H2. reflexivity.
Defined.

(** ** Normalisation: the size of the canvas *)

(** *** Binary64 rounding *)

Lemma digits2_pos_bounds (p : positive) :
  2 ^ (Z.pos (digits2_pos p) - 1) <= Z.pos p < 2 ^ Z.pos (digits2_pos p).
Proof.
  induction p as [p IH|p IH|]; simpl digits2_pos.
  - rewrite Pos2Z.inj_succ. replace (Z.succ (Z.pos (digits2_pos p)) - 1) with (Z.succ (Z.pos (digits2_pos p) - 1)) by lia.
    rewrite !Z.pow_succ_r by lia. lia.
  - rewrite Pos2Z.inj_succ. replace (Z.succ (Z.pos (digits2_pos p)) - 1) with (Z.succ (Z.pos (digits2_pos p) - 1)) by lia.
    rewrite !Z.pow_succ_r by lia. lia.
  - simpl. lia.
Qed.

Lemma Zdigits2_bounds (m : Z) :
  0 < m -> 2 ^ (Zdigits2 m - 1) <= m < 2 ^ Zdigits2 m.
Proof. destruct m as [|p|p]; try lia. intros _. apply digits2_pos_bounds. Qed.

Lemma Zdigits2_pos (m : Z) : 0 < m -> 0 < Zdigits2 m.
Proof. destruct m; simpl; lia. Qed.

Lemma Zdigits2_unique (m d : Z) :
  2 ^ (d - 1) <= m < 2 ^ d -> 0 < d -> Zdigits2 m = d.
Proof.
  intros [Hlo Hhi] Hd.
  assert (Hm : 0 < m) by (pose proof (Z.pow_pos_nonneg 2 (d - 1)); lia).
  destruct (Zdigits2_bounds m Hm) as [Hlo' Hhi'].
  pose proof (Zdigits2_pos m Hm) as Hpos.
  destruct (Z.lt_trichotomy (Zdigits2 m) d) as [Hlt|[Heq|Hgt]]; [|exact Heq|].
  - assert (2 ^ Zdigits2 m <= 2 ^ (d - 1)) by (apply Z.pow_le_mono_r; lia). lia.
  - assert (2 ^ d <= 2 ^ (Zdigits2 m - 1)) by (apply Z.pow_le_mono_r; lia). lia.
Qed.

Lemma shr_1_located (N D : Z) (mrs : shr_record) :
  0 <= N -> 0 < D -> located N D mrs -> located N (2 * D) (shr_1 mrs).
Proof.
  intros HN HD (Hm & Hr & Hs).
  pose proof (Z.div_mod N D ltac:(lia)) as Hdm.
  pose proof (Z.mod_pos_bound N D HD) as Hb.
  destruct mrs as [m r s]. simpl in *.
  assert (Hq : forall p b, (b = 0 \/ b = 1) -> m = 2 * p + b ->
             N / (2 * D) = p /\ N mod (2 * D) = b * D + N mod D).
  { intros p b Hbb Hmp.
    assert (Heq : N = p * (2 * D) + (b * D + N mod D)) by (rewrite <- Hm in Hdm; nia).
    assert (Hrange : 0 <= b * D + N mod D < 2 * D) by nia.
    split.
    - symmetry. apply (Z.div_unique_pos N (2*D) p (b * D + N mod D)); lia.
    - symmetry. apply (Z.mod_unique_pos N (2*D) p (b * D + N mod D)); lia. }
  assert (Hm0 : 0 <= m) by (rewrite Hm; apply Z.div_pos; lia).
  assert (Hrs : orb r s = negb (N mod D =? 0)).
  { rewrite Hr, Hs.
    destruct (Z.leb_spec D (2 * (N mod D))), (Z.eqb_spec (N mod D) 0), (Z.eqb_spec (2 * (N mod D)) D); simpl; try reflexivity; lia. }
  destruct m as [|[p|p|]|p]; try lia; unfold located; simpl shr_m; simpl shr_r; simpl shr_s; rewrite Hrs.
  - destruct (Hq 0 0) as [H1 H2]; [lia|lia|]. rewrite H1, H2.
    repeat split.
    + symmetry. apply Z.leb_gt. lia.
    + f_equal. destruct (Z.eqb_spec (N mod D) 0), (Z.eqb_spec (0 * D + N mod D) 0), (Z.eqb_spec (2 * (0 * D + N mod D)) (2 * D)); simpl; try reflexivity; lia.
  - destruct (Hq (Z.pos p) 1) as [H1 H2]; [lia|lia|]. rewrite H1, H2.
    repeat split.
    + symmetry. apply Z.leb_le. lia.
    + f_equal. destruct (Z.eqb_spec (N mod D) 0), (Z.eqb_spec (1 * D + N mod D) 0), (Z.eqb_spec (2 * (1 * D + N mod D)) (2 * D)); simpl; try reflexivity; lia.
  - destruct (Hq (Z.pos p) 0) as [H1 H2]; [lia|lia|]. rewrite H1, H2.
    repeat split.
    + symmetry. apply Z.leb_gt. lia.
    + f_equal. destruct (Z.eqb_spec (N mod D) 0), (Z.eqb_spec (0 * D + N mod D) 0), (Z.eqb_spec (2 * (0 * D + N mod D)) (2 * D)); simpl; try reflexivity; lia.
  - destruct (Hq 0 1) as [H1 H2]; [lia|lia|]. rewrite H1, H2.
    repeat split.
    + symmetry. apply Z.leb_le. lia.
    + f_equal. destruct (Z.eqb_spec (N mod D) 0), (Z.eqb_spec (1 * D + N mod D) 0), (Z.eqb_spec (2 * (1 * D + N mod D)) (2 * D)); simpl; try reflexivity; lia.
Qed.

Lemma pow2_xO (n : positive) : 2 ^ Z.pos n~0 = 2 ^ Z.pos n * 2 ^ Z.pos n.
Proof.
  replace (Z.pos n~0) with (Z.pos n + Z.pos n) by lia.
  apply Z.pow_add_r; lia.
Qed.

Lemma pow2_xI (n : positive) : 2 ^ Z.pos n~1 = 2 * (2 ^ Z.pos n * 2 ^ Z.pos n).
Proof.
  replace (Z.pos n~1) with (Z.succ (Z.pos n + Z.pos n)) by lia.
  rewrite Z.pow_succ_r, Z.pow_add_r by lia. reflexivity.
Qed.

Lemma iter_shr_1_located (n : positive) :
  forall N D mrs, 0 <= N -> 0 < D -> located N D mrs ->
    located N (D * 2 ^ Z.pos n) (SpecFloat.iter_pos shr_1 n mrs).
Proof.
  induction n as [n IH|n IH|]; intros N D mrs HN HD Hloc; simpl SpecFloat.iter_pos.
  - replace (D * 2 ^ Z.pos n~1) with (2 * D * 2 ^ Z.pos n * 2 ^ Z.pos n).
    + assert (0 < 2 ^ Z.pos n) by (apply Z.pow_pos_nonneg; lia).
      apply IH; [lia|nia|]. apply IH; [lia|lia|]. by apply shr_1_located.
    + rewrite pow2_xI. ring.
  - replace (D * 2 ^ Z.pos n~0) with (D * 2 ^ Z.pos n * 2 ^ Z.pos n).
    + assert (0 < 2 ^ Z.pos n) by (apply Z.pow_pos_nonneg; lia).
      apply IH; [lia|nia|]. by apply IH.
    + rewrite pow2_xO. ring.
  - replace (D * 2 ^ 1) with (2 * D) by (change (2 ^ 1) with 2; ring).
    by apply shr_1_located.
Qed.

Lemma shr_located (N D : Z) (mrs : shr_record) (e n : Z) :
  0 <= N -> 0 < D -> 0 <= n -> located N D mrs ->
  located N (D * 2 ^ n) (fst (shr mrs e n)) /\ snd (shr mrs e n) = e + n.
Proof.
  intros HN HD Hn Hloc. destruct n as [|n|n]; [| |lia].
  - simpl. rewrite Z.mul_1_r, Z.add_0_r. done.
  - simpl. split; [|reflexivity]. by apply iter_shr_1_located.
Qed.

Lemma round_nearest_even_located (N D : Z) (mrs : shr_record) :
  0 <= N -> 0 < D -> located N D mrs ->
  N / D <= round_nearest_even (shr_m mrs) (loc_of_shr_record mrs) <= N / D + 1 /\
  Z.abs (2 * round_nearest_even (shr_m mrs) (loc_of_shr_record mrs) * D - 2 * N) <= D.
Proof.
  intros HN HD (Hm & Hr & Hs).
  pose proof (Z.div_mod N D ltac:(lia)) as Hdm.
  pose proof (Z.mod_pos_bound N D HD) as Hb.
  destruct mrs as [m r s]. simpl in *. rewrite <- Hm in *.
  destruct (Z.leb_spec D (2 * (N mod D))), (Z.eqb_spec (N mod D) 0),
    (Z.eqb_spec (2 * (N mod D)) D); simpl in Hs; subst r s; simpl;
    try destruct (Z.even m); split; try lia; nia.
Qed.

Lemma fexp_normal (x : Z) : -1021 <= x -> fexp 53 1024 x = x - 53.
Proof. intros H. unfold fexp, emin. lia. Qed.

Lemma located_of_loc_m (N D m : Z) (l : location) :
  located N D (shr_record_of_loc m l) -> m = N / D.
Proof. intros (H & _). by destruct l as [|[| |]]. Qed.

(** Rounding a located quotient to 53 bits. *)
Lemma binary_round_aux_located (sx : bool) (N D m e : Z) (l : location) :
  0 <= N -> 0 < D ->
  located N D (shr_record_of_loc m l) ->
  53 <= Zdigits2 m ->
  -1021 <= Zdigits2 m + e ->
  Zdigits2 m + e <= 1023 ->
  exists M E,
    binary_round_aux 53 1024 sx m e l = S754_finite sx M E /\
    2 ^ 52 <= Z.pos M < 2 ^ 53 /\
    Zdigits2 m - 53 <= E - e <= Zdigits2 m - 53 + 1 /\
    Z.abs (2 * Z.pos M * 2 ^ (E - e) * D - 2 * N) <= D * 2 ^ (E - e).
Proof.
  intros HN HD Hloc Hd Hlo Hhi.
  pose proof (located_of_loc_m _ _ _ _ Hloc) as Hm.
  assert (Hm0 : 0 <= m) by (rewrite Hm; apply Z.div_pos; lia).
  assert (Hmpos : 0 < m) by (destruct m; simpl in Hd; lia).
  set (d := Zdigits2 m) in *. set (n := d - 53).
  destruct (Zdigits2_bounds m Hmpos) as [Hmlo Hmhi]. fold d in Hmlo, Hmhi.
  assert (Hpn : 0 < 2 ^ n) by (apply Z.pow_pos_nonneg; lia).
  assert (Hd1 : 2 ^ (d - 1) = 2 ^ n * 2 ^ 52).
  { rewrite <- Z.pow_add_r by lia. f_equal. lia. }
  assert (Hd2 : 2 ^ d = 2 ^ n * 2 ^ 53).
  { rewrite <- Z.pow_add_r by lia. f_equal. lia. }
  unfold binary_round_aux, shr_fexp. fold d.
  rewrite fexp_normal by lia.
  replace (d + e - 53 - e) with n by lia.
  destruct (shr_located N D (shr_record_of_loc m l) e n HN HD ltac:(lia) Hloc)
    as [Hloc' He'].
  destruct (shr (shr_record_of_loc m l) e n) as [mrs' e']. simpl in Hloc', He'.
  subst e'.
  assert (HD' : 0 < D * 2 ^ n) by nia.
  destruct (round_nearest_even_located N (D * 2 ^ n) mrs' HN HD' Hloc')
    as [Hrange Herr].
  set (m'' := round_nearest_even (shr_m mrs') (loc_of_shr_record mrs')) in *.
  assert (Hm' : 2 ^ 52 <= N / (D * 2 ^ n) < 2 ^ 53).
  { rewrite <- Z.div_div by lia. rewrite <- Hm. split.
    - apply Z.div_le_lower_bound; lia.
    - apply Z.div_lt_upper_bound; lia. }
  assert (Hm'' : 2 ^ 52 <= m'' <= 2 ^ 53) by lia.
  destruct (Z.eq_dec m'' (2 ^ 53)) as [Heq|Hne].
  - (* the mantissa was rounded up to 2^53 *)
    rewrite Heq. replace (Zdigits2 (2 ^ 53)) with 54 by reflexivity.
    rewrite fexp_normal by lia.
    replace (54 + (e + n) - 53 - (e + n)) with 1 by lia.
    simpl shr. simpl shr_m. cbv iota.
    destruct (Z.leb_spec (e + n + 1) (1024 - 53)) as [_|Hbad]; [|lia].
    exists (4503599627370496%positive), (e + n + 1).
    split; [reflexivity|]. split; [split; [done|reflexivity]|].
    split; [lia|].
    replace (e + n + 1 - e) with (Z.succ n) by lia.
    rewrite Z.pow_succ_r by lia.
    replace (2 * 4503599627370496 * (2 * 2 ^ n) * D) with (2 * 2 ^ 53 * (D * 2 ^ n))
      by (change (2 ^ 53) with 9007199254740992; ring).
    rewrite <- Heq. lia.
  - (* the mantissa still has 53 bits *)
    assert (Hdig : Zdigits2 m'' = 53).
    { apply Zdigits2_unique; [|lia]. change (53 - 1) with 52. lia. }
    rewrite Hdig. rewrite fexp_normal by lia.
    replace (53 + (e + n) - 53 - (e + n)) with 0 by lia.
    simpl shr. simpl shr_m.
    destruct m'' as [|M|M] eqn:HM; try lia.
    destruct (Z.leb_spec (e + n) (1024 - 53)) as [_|Hbad]; [|lia].
    exists M, (e + n). split; [reflexivity|]. split; [lia|]. split; [lia|].
    replace (e + n - e) with n by lia.
    replace (2 * Z.pos M * 2 ^ n * D) with (2 * Z.pos M * (D * 2 ^ n)) by ring.
    lia.
Qed.

Lemma binary_round_aux_exact (sx : bool) (M : positive) (e : Z) :
  2 ^ 52 <= Z.pos M < 2 ^ 53 -> -1074 <= e <= 971 ->
  binary_round_aux 53 1024 sx (Z.pos M) e loc_Exact = S754_finite sx M e.
Proof.
  intros HM He.
  assert (Hdig : Zdigits2 (Z.pos M) = 53).
  { apply Zdigits2_unique; [|lia]. change (53 - 1) with 52. lia. }
  unfold binary_round_aux, shr_fexp. rewrite Hdig.
  rewrite fexp_normal by lia. replace (53 + e - 53 - e) with 0 by lia.
  cbn [shr shr_record_of_loc shr_m loc_of_shr_record round_nearest_even].
  rewrite Hdig. rewrite fexp_normal by lia.
  replace (53 + e - 53 - e) with 0 by lia.
  cbn [shr shr_record_of_loc shr_m].
  destruct (Z.leb_spec e (1024 - 53)); [reflexivity|lia].
Qed.

Lemma iter_xO (k p : positive) : Z.pos (Pos.iter xO p k) = Z.pos p * 2 ^ Z.pos k.
Proof.
  change (Pos.iter xO p k) with (shift_pos k p).
  rewrite shift_pos_correct. change (Z.pow_pos 2 k) with (2 ^ Z.pos k). ring.
Qed.

(** The number of a positive integer below 2^53: its canonical mantissa
    and exponent. *)
Lemma of_Z_pos (z : Z) :
  0 < z < 2 ^ 53 ->
  exists M, Number.of_Z z = S754_finite false M (Zdigits2 z - 53) /\
            Z.pos M = z * 2 ^ (53 - Zdigits2 z) /\
            2 ^ 52 <= Z.pos M < 2 ^ 53.
Proof.
  intros [Hz0 Hz]. destruct z as [|p|p]; try lia.
  pose proof (digits2_pos_bounds p) as [Hlo Hhi].
  unfold Number.of_Z, binary_normalize, binary_round. simpl Zdigits2.
  set (d := Z.pos (digits2_pos p)) in *.
  assert (Hd : d <= 53).
  { destruct (Z.le_gt_cases d 53); [done|].
    assert (2 ^ 53 <= 2 ^ (d - 1)) by (apply Z.pow_le_mono_r; lia). lia. }
  rewrite fexp_normal by lia.
  unfold shl_align. replace (d + 0 - 53 - 0) with (d - 53) by lia.
  destruct (d - 53) as [|k|k] eqn:Hk; try lia.
  - exists p. replace (53 - d) with 0 by lia. rewrite Z.mul_1_r.
    assert (d = 53) by lia. replace (d - 1) with 52 in Hlo by lia.
    replace d with 53 in Hhi by lia.
    split; [|split; [reflexivity|lia]].
    apply binary_round_aux_exact; lia.
  - exists (Pos.iter xO p k).
    assert (Hb : 2 ^ 52 <= Z.pos (Pos.iter xO p k) < 2 ^ 53).
    { rewrite iter_xO.
      assert (E1 : 2 ^ 52 = 2 ^ (d - 1) * 2 ^ Z.pos k).
      { rewrite <- Z.pow_add_r by lia. f_equal. lia. }
      assert (E2 : 2 ^ 53 = 2 ^ d * 2 ^ Z.pos k).
      { rewrite <- Z.pow_add_r by lia. f_equal. lia. }
      rewrite E1, E2.
      assert (0 < 2 ^ Z.pos k) by (apply Z.pow_pos_nonneg; lia). nia. }
    split; [|split; [|exact Hb]].
    + replace (d + 0 - 53) with (Z.neg k) by lia.
      apply binary_round_aux_exact; [exact Hb|lia].
    + rewrite iter_xO. f_equal. f_equal. lia.
Qed.

Lemma new_location_located (N D : Z) :
  0 <= N -> 0 < D ->
  located N D (shr_record_of_loc (N / D) (new_location D (N mod D))).
Proof.
  intros HN HD. pose proof (Z.mod_pos_bound N D HD) as Hb.
  unfold new_location, new_location_even, new_location_odd, located.
  destruct (Z.even D) eqn:Hev.
  - destruct (Z.eqb_spec (N mod D) 0) as [Hz|Hz]; simpl.
    + rewrite Hz. simpl. repeat split. symmetry. apply Z.leb_gt. lia.
    + destruct (Z.compare_spec (2 * (N mod D)) D); simpl; repeat split;
        try (symmetry; apply Z.leb_le; lia); try (symmetry; apply Z.leb_gt; lia);
        destruct (Z.eqb_spec (2 * (N mod D)) D); simpl; try reflexivity; lia.
  - assert (Hodd : 2 * (N mod D) <> D).
    { intros Heq. rewrite <- Heq, Z.even_mul in Hev. discriminate. }
    destruct (Z.eqb_spec (N mod D) 0) as [Hz|Hz]; simpl.
    + rewrite Hz. simpl. repeat split. symmetry. apply Z.leb_gt. lia.
    + destruct (Z.compare_spec (2 * (N mod D) + 1) D); simpl; repeat split;
        try (symmetry; apply Z.leb_le; lia); try (symmetry; apply Z.leb_gt; lia);
        destruct (Z.eqb_spec (2 * (N mod D)) D); simpl; try reflexivity; lia.
Qed.

Lemma Zdigits2_canonical (M : positive) :
  2 ^ 52 <= Z.pos M < 2 ^ 53 -> Zdigits2 (Z.pos M) = 53.
Proof. intros H. apply Zdigits2_unique; [|lia]. change (53 - 1) with 52. lia. Qed.

(** The quotient of two positive canonical numbers. *)
Lemma SFdiv_located (mx my : positive) (ex ey : Z) :
  2 ^ 52 <= Z.pos mx < 2 ^ 53 -> 2 ^ 52 <= Z.pos my < 2 ^ 53 ->
  -900 <= ex - ey <= 900 ->
  exists M E,
    SFdiv 53 1024 (S754_finite false mx ex) (S754_finite false my ey)
      = S754_finite false M E /\
    2 ^ 52 <= Z.pos M < 2 ^ 53 /\
    0 <= E - (ex - ey - 53) <= 2 /\
    Z.abs (2 * Z.pos M * 2 ^ (E - (ex - ey - 53)) * Z.pos my
           - 2 * (Z.pos mx * 2 ^ 53))
      <= Z.pos my * 2 ^ (E - (ex - ey - 53)).
Proof.
  intros Hx Hy He.
  unfold SFdiv, SFdiv_core_binary.
  rewrite (Zdigits2_canonical mx Hx), (Zdigits2_canonical my Hy).
  rewrite fexp_normal by lia.
  replace (Z.min (53 + ex - (53 + ey) - 53) (ex - ey)) with (ex - ey - 53) by lia.
  replace (ex - ey - (ex - ey - 53)) with 53 by lia.
  rewrite Z.shiftl_mul_pow2 by lia.
  set (N := Z.pos mx * 2 ^ 53).
  assert (HN : 0 <= N) by (unfold N; lia).
  pose proof (new_location_located N (Z.pos my) HN ltac:(lia)) as Hloc.
  unfold Z.div, Z.modulo in Hloc.
  destruct (Z.div_eucl N (Z.pos my)) as [q r] eqn:Hqr.
  assert (Hq : q = N / Z.pos my) by (unfold Z.div; by rewrite Hqr).
  assert (Hqb : 2 ^ 52 <= q < 2 ^ 54).
  { rewrite Hq. split.
    - apply Z.div_le_lower_bound; [lia|]. unfold N. lia.
    - apply Z.div_lt_upper_bound; [lia|]. unfold N. lia. }
  assert (Hdq : Zdigits2 q = 53 \/ Zdigits2 q = 54).
  { destruct (Z.lt_ge_cases q (2 ^ 53)).
    - left. apply Zdigits2_unique; [|lia]. change (53 - 1) with 52. lia.
    - right. apply Zdigits2_unique; [|lia]. change (54 - 1) with 53. lia. }
  destruct (binary_round_aux_located (xorb false false) N (Z.pos my) q
              (ex - ey - 53) (new_location (Z.pos my) r) HN ltac:(lia) Hloc)
    as (M & E & Heq & HM & Hk & Herr); [lia|lia|lia|].
  exists M, E. split; [exact Heq|]. split; [exact HM|]. split; [lia|exact Herr].
Qed.

(** The product of two positive canonical numbers. *)
Lemma SFmul_located (mx my : positive) (ex ey : Z) :
  2 ^ 52 <= Z.pos mx < 2 ^ 53 -> 2 ^ 52 <= Z.pos my < 2 ^ 53 ->
  -1000 <= ex + ey <= 900 ->
  exists M E,
    SFmul 53 1024 (S754_finite false mx ex) (S754_finite false my ey)
      = S754_finite false M E /\
    2 ^ 52 <= Z.pos M < 2 ^ 53 /\
    52 <= E - (ex + ey) <= 54 /\
    Z.abs (2 * Z.pos M * 2 ^ (E - (ex + ey)) - 2 * (Z.pos mx * Z.pos my))
      <= 2 ^ (E - (ex + ey)).
Proof.
  intros Hx Hy He.
  unfold SFmul. rewrite Pos2Z.inj_mul.
  set (N := Z.pos mx * Z.pos my).
  assert (HNb : 2 ^ 104 <= N < 2 ^ 106) by (unfold N; nia).
  assert (Hloc : located N 1 (shr_record_of_loc N loc_Exact)).
  { unfold located. simpl. rewrite Z.div_1_r, Z.mod_1_r. done. }
  assert (Hdq : Zdigits2 N = 105 \/ Zdigits2 N = 106).
  { destruct (Z.lt_ge_cases N (2 ^ 105)).
    - left. apply Zdigits2_unique; [|lia]. change (105 - 1) with 104. lia.
    - right. apply Zdigits2_unique; [|lia]. change (106 - 1) with 105. lia. }
  destruct (binary_round_aux_located (xorb false false) N 1 N
              (ex + ey) loc_Exact ltac:(lia) ltac:(lia) Hloc)
    as (M & E & Heq & HM & Hk & Herr); [lia|lia|lia|].
  exists M, E. split; [exact Heq|]. split; [exact HM|]. split; [lia|].
  rewrite Z.mul_1_r in Herr. by rewrite Z.mul_1_l in Herr.
Qed.

Lemma combine_errors (s l X MQ MR P1 P2 T : Z) :
  0 < l -> 0 <= s -> 0 < X -> 0 < P1 -> 2 ^ 52 <= P2 ->
  T * (P1 * P2) = 2 ^ 95 * X ->
  Z.abs (2 * MQ * P1 * l - 2 * (s * X * 2 ^ 53)) <= l * P1 ->
  Z.abs (2 * MR * P2 - 2 * (MQ * 8444249301319680)) <= P2 ->
  Z.abs (2 * MR * l - 3840 * s * T) < 3 * l.
Proof.
  intros Hl Hs HX HP1 HP2 HT H1 H2.
  apply Z.abs_le in H1. apply Z.abs_le in H2. apply Z.abs_lt.
  change (2 ^ 52) with 4503599627370496 in *.
  change (2 ^ 53) with 9007199254740992 in *.
  change (2 ^ 95) with 39614081257132168796771975168 in *.
  set (A := l * P1) in *.
  assert (HA : 0 < A) by (unfold A; nia).
  set (m2 := MQ * A).
  assert (Hm2 : MQ * P1 * l = m2) by (unfold m2, A; ring).
  set (m1 := MR * P2 * A).
  set (m4 := A * P2).
  assert (Hm4 : 0 < m4) by (unfold m4; nia).
  assert (H2a : - m4 <= 2 * m1 - 2 * (m2 * 8444249301319680) <= m4).
  { unfold m1, m2, m4. split; nia. }
  assert (H1a : - (8444249301319680 * A)
                <= 2 * m2 * 8444249301319680
                   - 2 * (s * X * 9007199254740992) * 8444249301319680
                <= 8444249301319680 * A).
  { rewrite <- Hm2. unfold A. split; nia. }
  assert (Hc : 8 * (8444249301319680 * A) <= 15 * m4) by (unfold m4; nia).
  set (U := 2 * MR * l - 3840 * s * T).
  assert (HU : U * (P1 * P2) = 2 * m1 - 3840 * s * (39614081257132168796771975168 * X)).
  { unfold U, m1, A. rewrite <- HT. ring. }
  assert (HPP : 0 < P1 * P2) by nia.
  assert (Hb : - (3 * m4) < U * (P1 * P2) < 3 * m4) by lia.
  assert (Hm4' : m4 = l * (P1 * P2)) by (unfold m4, A; ring).
  split; nia.
Qed.

Lemma round_half_up_near (s l MR T : Z) :
  0 < l -> 0 <= s -> 3 * l <= T ->
  Z.abs (2 * MR * l - 3840 * s * T) < 3 * l ->
  (2 * MR + T) / (2 * T) = (3840 * s + l) / (2 * l) \/
  ((3840 * s + l) mod (2 * l) = 0 /\
   (2 * MR + T) / (2 * T) = (3840 * s + l) / (2 * l) - 1).
Proof.
  intros Hl Hs HT H. apply Z.abs_lt in H.
  pose proof (Z.div_mod (3840 * s + l) (2 * l) ltac:(lia)) as Hdm.
  pose proof (Z.mod_pos_bound (3840 * s + l) (2 * l) ltac:(lia)) as Hb.
  set (E := (3840 * s + l) / (2 * l)) in *.
  set (rho := (3840 * s + l) mod (2 * l)) in *.
  assert (HE : 0 <= E) by (apply Z.div_pos; lia).
  destruct (Z.eq_dec rho 0) as [Hz|Hnz].
  - (* a tie *)
    assert (Hnear : -3 < 2 * MR - (2 * E - 1) * T < 3) by nia.
    assert (Hlo : E - 1 <= (2 * MR + T) / (2 * T)).
    { apply Z.div_le_lower_bound; nia. }
    assert (Hhi : (2 * MR + T) / (2 * T) < E + 1).
    { apply Z.div_lt_upper_bound; nia. }
    destruct (Z.eq_dec ((2 * MR + T) / (2 * T)) E); [left; done|right].
    split; [done|lia].
  - left.
    assert (Hlo : E <= (2 * MR + T) / (2 * T)).
    { apply Z.div_le_lower_bound; [lia|].
      assert (l * ((2 * E - 1) * T) <= l * (2 * MR)); [|nia].
      nia. }
    assert (Hhi : (2 * MR + T) / (2 * T) < E + 1).
    { apply Z.div_lt_upper_bound; [lia|].
      assert (l * (2 * MR) < l * ((2 * E + 1) * T)); [|nia].
      nia. }
    lia.
Qed.

Lemma Zdigits2_mono (a b : Z) : 0 < a <= b -> Zdigits2 a <= Zdigits2 b.
Proof.
  intros [Ha Hab].
  destruct (Zdigits2_bounds a Ha) as [Hlo _].
  destruct (Zdigits2_bounds b ltac:(lia)) as [_ Hhi].
  destruct (Z.le_gt_cases (Zdigits2 a) (Zdigits2 b)); [done|].
  assert (2 ^ Zdigits2 b <= 2 ^ (Zdigits2 a - 1)).
  { apply Z.pow_le_mono_r; [lia|]. lia. }
  lia.
Qed.

Lemma Zdigits2_below (a d : Z) : 0 < a < 2 ^ d -> 0 <= d -> Zdigits2 a <= d.
Proof.
  intros [Ha Hlt] Hd.
  destruct (Zdigits2_bounds a Ha) as [Hlo _].
  destruct (Z.le_gt_cases (Zdigits2 a) d); [done|].
  assert (2 ^ d <= 2 ^ (Zdigits2 a - 1)).
  { apply Z.pow_le_mono_r; lia. }
  lia.
Qed.

(** The scaled dimension, against the exact quotient rounded half up. *)
Lemma scaled_dimension (s l : Z) :
  0 <= s <= l -> 1920 < l < 2 ^ 32 ->
  let r := Number.Math_round (Number.mul (Number.div (Number.of_Z s) (Number.of_Z l)) (Number.of_Z 1920)) in
  r = (3840 * s + l) / (2 * l) \/
  ((3840 * s + l) mod (2 * l) = 0 /\ r = (3840 * s + l) / (2 * l) - 1).
Proof.
  intros [Hs0 Hsl] [Hl1 Hl2]. cbv zeta.
  destruct (Z.eq_dec s 0) as [->|Hs].
  { left. destruct (of_Z_pos l ltac:(lia)) as (Ml & -> & _).
    simpl. symmetry. apply Z.div_small. lia. }
  destruct (of_Z_pos s ltac:(lia)) as (Ms & -> & HMs & HMsb).
  destruct (of_Z_pos l ltac:(lia)) as (Ml & -> & HMl & HMlb).
  pose proof (Zdigits2_mono s l ltac:(lia)) as Hmono.
  pose proof (Zdigits2_below l 32 ltac:(lia) ltac:(lia)) as Hdl.
  pose proof (Zdigits2_pos s ltac:(lia)) as Hds.
  set (ds := Zdigits2 s) in *. set (dl := Zdigits2 l) in *.
  destruct (SFdiv_located Ms Ml (ds - 53) (dl - 53) HMsb HMlb ltac:(lia))
    as (MQ & EQ & HQ & HMQ & Hk1 & Herr1).
  unfold Number.div, Number.mul, Number.prec, Number.emax. rewrite HQ.
  replace (Number.of_Z 1920) with (S754_finite false 8444249301319680 (-42))
    by reflexivity.
  destruct (SFmul_located MQ 8444249301319680 EQ (-42) HMQ
              ltac:(split; [discriminate|reflexivity]) ltac:(lia))
    as (MR & ER & HR & HMR & Hk2 & Herr2).
  rewrite HR. unfold Number.Math_round.
  destruct (Z.leb_spec 0 ER) as [Hbad|_]; [lia|].
  set (k1 := EQ - (ds - 53 - (dl - 53) - 53)) in *.
  set (k2 := ER - (EQ + -42)) in *.
  set (T := 2 ^ (- ER)).
  replace (2 ^ (1 - ER)) with (2 * T).
  2:{ unfold T. replace (1 - ER) with (Z.succ (- ER)) by lia.
      rewrite Z.pow_succ_r by lia. reflexivity. }
  assert (HT : T * (2 ^ k1 * 2 ^ k2) = 2 ^ 95 * 2 ^ (dl - ds)).
  { unfold T. rewrite <- !Z.pow_add_r by lia. f_equal. lia. }
  assert (HTbig : 2 ^ 39 <= T).
  { unfold T. apply Z.pow_le_mono_r; lia. }
  assert (HP1 : 0 < 2 ^ k1) by (apply Z.pow_pos_nonneg; lia).
  assert (HP2 : 2 ^ 52 <= 2 ^ k2) by (apply Z.pow_le_mono_r; lia).
  assert (HX : 0 < 2 ^ (dl - ds)) by (apply Z.pow_pos_nonneg; lia).
  assert (Hb : 0 < 2 ^ (53 - dl)) by (apply Z.pow_pos_nonneg; lia).
  assert (HsX : Z.pos Ms = s * 2 ^ (dl - ds) * 2 ^ (53 - dl)).
  { rewrite HMs, <- Z.mul_assoc, <- Z.pow_add_r by lia. do 2 f_equal. lia. }
  assert (Herr1' : Z.abs (2 * Z.pos MQ * 2 ^ k1 * l
                          - 2 * (s * 2 ^ (dl - ds) * 2 ^ 53)) <= l * 2 ^ k1).
  { rewrite HsX, HMl in Herr1.
    replace (2 * Z.pos MQ * 2 ^ k1 * (l * 2 ^ (53 - dl))
             - 2 * (s * 2 ^ (dl - ds) * 2 ^ (53 - dl) * 2 ^ 53))
      with (2 ^ (53 - dl) * (2 * Z.pos MQ * 2 ^ k1 * l
                             - 2 * (s * 2 ^ (dl - ds) * 2 ^ 53))) in Herr1 by ring.
    rewrite Z.abs_mul, (Z.abs_eq (2 ^ (53 - dl))) in Herr1 by lia.
    replace (l * 2 ^ (53 - dl) * 2 ^ k1) with (2 ^ (53 - dl) * (l * 2 ^ k1))
      in Herr1 by ring.
    by apply Z.mul_le_mono_pos_l in Herr1. }
  apply round_half_up_near; [lia|lia|lia|].
  apply (combine_errors s l (2 ^ (dl - ds)) (Z.pos MQ) (Z.pos MR)
           (2 ^ k1) (2 ^ k2) T); try done; lia.
Qed.

(** *** The canvas *)

Lemma roundHalfUp_scaled (s l : Z) :
  roundHalfUp (s * 1920) l = (3840 * s + l) / (2 * l).
Proof. unfold roundHalfUp. f_equal. ring. Qed.

Lemma scaled_dimension_rounded (s l : Z) :
  0 <= s <= l -> 1920 < l < 2 ^ 32 ->
  nearlyRounded (s * 1920) l
    (Number.Math_round
       (Number.mul (Number.div (Number.of_Z s) (Number.of_Z l))
                   (Number.of_Z 1920))).
Proof.
  intros Hs Hl. unfold nearlyRounded, isTie. rewrite roundHalfUp_scaled.
  replace (2 * (s * 1920) + l) with (3840 * s + l) by ring.
  by apply scaled_dimension.
Qed.

Lemma roundHalfUp_le (s l : Z) :
  0 <= s <= l -> 0 < l -> roundHalfUp (s * 1920) l <= 1920.
Proof.
  intros Hs Hl. rewrite roundHalfUp_scaled.
  apply Z.lt_succ_r. apply Z.div_lt_upper_bound; lia.
Qed.

Lemma canvasSize_small (w h : Z) :
  w <= 1920 -> h <= 1920 -> canvasSize w h 1920 = (w, h).
Proof.
  intros Hw Hh. unfold canvasSize.
  destruct (Z.leb_spec w 1920), (Z.leb_spec h 1920); simpl; [done|lia..].
Qed.

Lemma canvasSize_wide (w h : Z) :
  0 <= h < w -> 1920 < w < 2 ^ 32 ->
  exists r, canvasSize w h 1920 = (1920, r) /\
            nearlyRounded (h * 1920) w r /\ r <= 1920.
Proof.
  intros Hh Hw. unfold canvasSize, resized.
  replace (w <=? 1920) with false by (symmetry; apply Z.leb_gt; lia).
  replace (h <? w) with true by (symmetry; apply Z.ltb_lt; lia).
  cbv beta iota zeta. rewrite andb_false_l.
  eexists. split; [reflexivity|].
  pose proof (scaled_dimension_rounded h w ltac:(lia) Hw) as Hr.
  split; [exact Hr|].
  pose proof (roundHalfUp_le h w ltac:(lia) ltac:(lia)).
  destruct Hr as [Hr|[_ Hr]]; rewrite Hr; lia.
Qed.

Lemma canvasSize_tall (w h : Z) :
  0 <= w <= h -> 1920 < h < 2 ^ 32 ->
  exists r, canvasSize w h 1920 = (r, 1920) /\
            nearlyRounded (w * 1920) h r /\ r <= 1920.
Proof.
  intros Hw Hh. unfold canvasSize, resized.
  replace (h <=? 1920) with false by (symmetry; apply Z.leb_gt; lia).
  replace (h <? w) with false by (symmetry; apply Z.ltb_ge; lia).
  rewrite andb_false_r. cbv beta iota zeta.
  eexists. split; [reflexivity|].
  pose proof (scaled_dimension_rounded w h ltac:(lia) Hh) as Hr.
  split; [exact Hr|].
  pose proof (roundHalfUp_le w h ltac:(lia) ltac:(lia)).
  destruct Hr as [Hr|[_ Hr]]; rewrite Hr; lia.
Qed.

Lemma processImage_canvas_size (B : Browser) (url : string) (img : Image)
    (c : Canvas) :
  decode B url = Some img ->
  processImage_canvas B url 1920 = Resolve c ->
  (width c, height c) = canvasSize (naturalWidth img) (naturalHeight img) 1920.
Proof.
  intros Hdec. unfold processImage_canvas, canvasSize. rewrite Hdec.
  destruct (_ && _).
  - destruct (getContext2d B _ _); intros ?; by simplify_eq.
  - destruct (resized _ _ _) as [cw ch].
    destruct (getContext2d B cw ch); intros ?; by simplify_eq.
Qed.

(** C1, as the specification states it, fails: a 2560 x 1282 image is
    scaled to 1920 x 961 although 1282 * 1920 / 2560 is exactly 961.5, whose
    [round] is 962. No rule for halves repairs the formula: 22.5 (from
    2048 x 24) becomes 23 and 122.5 (from 2304 x 147) becomes 122. *)
Lemma normalize_not_exact_rounding :
  processImage_canvas wideBrowser "data:wide.png" 1920
    = Resolve {| width := 1920; height := 961; drawn := "data:wide.png" |} /\
  canvasSize 2560 1282 1920 = (1920, 961) /\
  specNormalizedSize 2560 1282 = (1920, 962) /\
  canvasSize 2560 1282 1920 <> specNormalizedSize 2560 1282 /\
  2 * (1282 * 1920) = (2 * 961 + 1) * 2560 /\
  canvasSize 2048 24 1920 = (1920, 23) /\
  2 * (24 * 1920) = (2 * 22 + 1) * 2048 /\
  canvasSize 2304 147 1920 = (1920, 122) /\
  2 * (147 * 1920) = (2 * 122 + 1) * 2304.
Proof. repeat split; try reflexivity. vm_compute. discriminate. Qed.

(** C1, amended. For an image whose sides are below 2^32, [processImage]
    keeps the size when both sides are at most 1920. Otherwise the larger
    side becomes 1920, and the smaller side becomes [smaller * 1920 / larger]
    rounded to a nearest integer: the exact quotient rounded half up, except
    that a quotient exactly halfway between two integers may be rounded
    down (the quotient and the product are computed in binary64). *)
Theorem processImage_dimensions (B : Browser) (url : string) (img : Image)
    (c : Canvas) :
  decode B url = Some img ->
  0 <= naturalWidth img < 2 ^ 32 ->
  0 <= naturalHeight img < 2 ^ 32 ->
  processImage_canvas B url 1920 = Resolve c ->
  (naturalWidth img <= 1920 /\ naturalHeight img <= 1920 ->
     width c = naturalWidth img /\ height c = naturalHeight img) /\
  (1920 < naturalWidth img \/ 1920 < naturalHeight img ->
     Z.max (width c) (height c) = 1920 /\
     (naturalHeight img < naturalWidth img ->
        width c = 1920 /\
        nearlyRounded (naturalHeight img * 1920) (naturalWidth img) (height c)) /\
     (naturalWidth img <= naturalHeight img ->
        height c = 1920 /\
        nearlyRounded (naturalWidth img * 1920) (naturalHeight img) (width c))).
Proof.
  intros Hdec Hw Hh Hc.
  pose proof (processImage_canvas_size B url img c Hdec Hc) as Hsize.
  set (w := naturalWidth img) in *. set (h := naturalHeight img) in *.
  split.
  - intros [Hws Hhs]. rewrite canvasSize_small in Hsize by done.
    injection Hsize as Hwc Hhc. done.
  - intros Hbig. destruct (Z.lt_ge_cases h w) as [Hlt|Hge].
    + destruct (canvasSize_wide w h ltac:(lia) ltac:(lia)) as (r & Hr & Hn & Hle).
      rewrite Hr in Hsize. injection Hsize as Hwc Hhc. rewrite Hwc, Hhc.
      split; [lia|]. split; [done|lia].
    + destruct (canvasSize_tall w h ltac:(lia) ltac:(lia)) as (r & Hr & Hn & Hle).
      rewrite Hr in Hsize. injection Hsize as Hwc Hhc. rewrite Hwc, Hhc.
      split; [lia|]. split; [lia|done].
Qed.

Lemma processImage_dimensions_witness :
  processImage_canvas sampleBrowser "data:big.jpg" 1920
    = Resolve {| width := 1920; height := 1280; drawn := "data:big.jpg" |} /\
  roundHalfUp (2000 * 1920) 3000 = 1280 /\
  nearlyRounded (2000 * 1920) 3000 1280.
Proof.
  split; [reflexivity|]. split; [reflexivity|].
  destruct (processImage_dimensions sampleBrowser "data:big.jpg"
              {| naturalWidth := 3000; naturalHeight := 2000 |}
              {| width := 1920; height := 1280; drawn := "data:big.jpg" |})
    as (_ & H); [reflexivity | simpl; lia | simpl; lia | reflexivity |].
  destruct H as (_ & H & _); [simpl; lia|].
  destruct H as (_ & H); [simpl; lia|]. exact H.
Defined.

(** The scenario of the specification: images of 3000 x 2000, 800 x 600
    and 1920 x 1920 are normalised to 1920 x 1280, 800 x 600 and
    1920 x 1920. *)
Example canvasSize_scenario :
  canvasSize 3000 2000 1920 = (1920, 1280) /\
  canvasSize 800 600 1920 = (800, 600) /\
  canvasSize 1920 1920 1920 = (1920, 1920).
Proof. repeat split; reflexivity. Qed.

(** * Further properties *)

(** ** [processImage]: bounds, idempotence, exact and degenerate cases *)

Lemma nearlyRounded_range (s l r : Z) :
  0 <= s <= l -> 1920 < l ->
  nearlyRounded (s * 1920) l r -> 0 <= r <= 1920 /\ r <= s.
Proof.
  intros Hs Hl Hr. unfold nearlyRounded, isTie in Hr.
  rewrite roundHalfUp_scaled in Hr.
  replace (2 * (s * 1920) + l) with (3840 * s + l) in Hr by ring.
  pose proof (Z.div_mod (3840 * s + l) (2 * l) ltac:(lia)) as Hdm.
  pose proof (Z.mod_pos_bound (3840 * s + l) (2 * l) ltac:(lia)) as Hb.
  set (E := (3840 * s + l) / (2 * l)) in *.
  assert (HE0 : 0 <= E) by (apply Z.div_pos; lia).
  assert (HE1 : E <= 1920).
  { apply Z.lt_succ_r. apply Z.div_lt_upper_bound; lia. }
  assert (HEs : E <= s).
  { apply Z.lt_succ_r. apply Z.div_lt_upper_bound; nia. }
  destruct Hr as [->|[Htie ->]]; [lia|].
  rewrite Htie in Hdm. assert (1 <= E) by nia. lia.
Qed.

(** The canvas of [processImage] never exceeds 1920 on either side and is
    never larger than the image it was made from. *)
Theorem processImage_bounded_never_enlarges (B : Browser) (url : string)
    (img : Image) (c : Canvas) :
  decode B url = Some img ->
  0 <= naturalWidth img < 2 ^ 32 ->
  0 <= naturalHeight img < 2 ^ 32 ->
  processImage_canvas B url 1920 = Resolve c ->
  0 <= width c <= 1920 /\ 0 <= height c <= 1920 /\
  width c <= naturalWidth img /\ height c <= naturalHeight img.
Proof.
  intros Hdec Hw Hh Hc.
  pose proof (processImage_canvas_size B url img c Hdec Hc) as Hsize.
  set (w := naturalWidth img) in *. set (h := naturalHeight img) in *.
  destruct (Z.le_gt_cases w 1920) as [Hws|Hwb];
    [destruct (Z.le_gt_cases h 1920) as [Hhs|Hhb]|].
  - rewrite canvasSize_small in Hsize by done.
    injection Hsize as -> ->. lia.
  - destruct (canvasSize_tall w h ltac:(lia) ltac:(lia)) as (r & Hr & Hn & _).
    rewrite Hr in Hsize. injection Hsize as -> ->.
    pose proof (nearlyRounded_range w h r ltac:(lia) ltac:(lia) Hn). lia.
  - destruct (Z.lt_ge_cases h w) as [Hlt|Hge].
    + destruct (canvasSize_wide w h ltac:(lia) ltac:(lia)) as (r & Hr & Hn & _).
      rewrite Hr in Hsize. injection Hsize as -> ->.
      pose proof (nearlyRounded_range h w r ltac:(lia) ltac:(lia) Hn). lia.
    + destruct (canvasSize_tall w h ltac:(lia) ltac:(lia)) as (r & Hr & Hn & _).
      rewrite Hr in Hsize. injection Hsize as -> ->.
      pose proof (nearlyRounded_range w h r ltac:(lia) ltac:(lia) Hn). lia.
Qed.

Lemma processImage_bounded_never_enlarges_witness :
  exists c, processImage_canvas sampleBrowser "data:big.jpg" 1920 = Resolve c /\
            width c <= 1920 /\ height c <= 1920 /\
            width c <= 3000 /\ height c <= 2000.
Proof.
  exists {| width := 1920; height := 1280; drawn := "data:big.jpg" |}.
  split; [reflexivity|].
  destruct (processImage_bounded_never_enlarges sampleBrowser "data:big.jpg"
              {| naturalWidth := 3000; naturalHeight := 2000 |}
              {| width := 1920; height := 1280; drawn := "data:big.jpg" |}
              eq_refl ltac:(simpl; lia) ltac:(simpl; lia) eq_refl)
    as (H1 & H2 & H3 & H4).
  simpl in *. lia.
Defined.

Lemma canvasSize_range (w h : Z) :
  0 <= w < 2 ^ 32 -> 0 <= h < 2 ^ 32 ->
  0 <= fst (canvasSize w h 1920) <= 1920 /\
  0 <= snd (canvasSize w h 1920) <= 1920.
Proof.
  intros Hw Hh.
  destruct (Z.le_gt_cases w 1920) as [Hws|Hwb];
    [destruct (Z.le_gt_cases h 1920) as [Hhs|Hhb]|].
  - rewrite canvasSize_small by done. simpl. lia.
  - destruct (canvasSize_tall w h ltac:(lia) ltac:(lia)) as (r & -> & Hn & _).
    pose proof (nearlyRounded_range w h r ltac:(lia) ltac:(lia) Hn). simpl. lia.
  - destruct (Z.lt_ge_cases h w) as [Hlt|Hge].
    + destruct (canvasSize_wide w h ltac:(lia) ltac:(lia)) as (r & -> & Hn & _).
      pose proof (nearlyRounded_range h w r ltac:(lia) ltac:(lia) Hn). simpl. lia.
    + destruct (canvasSize_tall w h ltac:(lia) ltac:(lia)) as (r & -> & Hn & _).
      pose proof (nearlyRounded_range w h r ltac:(lia) ltac:(lia) Hn). simpl. lia.
Qed.

(** Normalising an image that is already normalised keeps its size:
    applying the size computation to its own result changes nothing. *)
Theorem canvasSize_idempotent (w h : Z) :
  0 <= w < 2 ^ 32 -> 0 <= h < 2 ^ 32 ->
  canvasSize (fst (canvasSize w h 1920)) (snd (canvasSize w h 1920)) 1920
    = canvasSize w h 1920.
Proof.
  intros Hw Hh. destruct (canvasSize_range w h Hw Hh) as [H1 H2].
  rewrite canvasSize_small by lia. by destruct (canvasSize w h 1920).
Qed.

Lemma canvasSize_idempotent_witness :
  canvasSize 1920 961 1920 = canvasSize 2560 1282 1920.
Proof.
  exact (canvasSize_idempotent 2560 1282 ltac:(lia) ltac:(lia)).
Defined.

Lemma nearlyRounded_exact (s l r : Z) :
  0 <= s -> 0 < l -> (s * 1920) mod l = 0 ->
  nearlyRounded (s * 1920) l r -> r = s * 1920 / l.
Proof.
  intros Hs Hl Hdiv Hr. unfold nearlyRounded, isTie, roundHalfUp in Hr.
  pose proof (Z.div_mod (s * 1920) l ltac:(lia)) as Hdm. rewrite Hdiv in Hdm.
  set (q := s * 1920 / l) in *.
  assert (Hsum : 2 * (s * 1920) + l = q * (2 * l) + l) by lia.
  assert (HE : (2 * (s * 1920) + l) / (2 * l) = q).
  { symmetry. apply (Z.div_unique_pos _ (2 * l) q l); lia. }
  assert (HM : (2 * (s * 1920) + l) mod (2 * l) = l).
  { symmetry. apply (Z.mod_unique_pos _ (2 * l) q l); lia. }
  rewrite HE, HM in Hr. destruct Hr as [->|[Hbad _]]; [done|lia].
Qed.

(** When the larger side divides [smaller * 1920], the smaller side of the
    canvas is exactly that quotient; in particular a square image larger
    than 1920 becomes 1920 x 1920. *)
Theorem canvasSize_exact_when_divisible (w h : Z) :
  0 <= w < 2 ^ 32 -> 0 <= h < 2 ^ 32 ->
  (h < w -> 1920 < w -> (h * 1920) mod w = 0 ->
     canvasSize w h 1920 = (1920, h * 1920 / w)) /\
  (w <= h -> 1920 < h -> (w * 1920) mod h = 0 ->
     canvasSize w h 1920 = (w * 1920 / h, 1920)) /\
  (w = h -> 1920 < w -> canvasSize w h 1920 = (1920, 1920)).
Proof.
  intros Hw Hh.
  assert (Htall : w <= h -> 1920 < h -> (w * 1920) mod h = 0 ->
                  canvasSize w h 1920 = (w * 1920 / h, 1920)).
  { intros Hle Hbig Hdiv.
    destruct (canvasSize_tall w h ltac:(lia) ltac:(lia)) as (r & -> & Hn & _).
    by rewrite (nearlyRounded_exact w h r ltac:(lia) ltac:(lia) Hdiv Hn). }
  split; [|split; [exact Htall|]].
  - intros Hlt Hbig Hdiv.
    destruct (canvasSize_wide w h ltac:(lia) ltac:(lia)) as (r & -> & Hn & _).
    by rewrite (nearlyRounded_exact h w r ltac:(lia) ltac:(lia) Hdiv Hn).
  - intros -> Hbig. rewrite Htall; [|lia|lia|].
    + by rewrite (Z.mul_comm h 1920), Z.div_mul by lia.
    + rewrite (Z.mul_comm h 1920). apply Z.mod_mul. lia.
Qed.

Lemma canvasSize_exact_when_divisible_witness :
  canvasSize 3840 2160 1920 = (1920, 1080) /\
  canvasSize 2000 2000 1920 = (1920, 1920).
Proof.
  destruct (canvasSize_exact_when_divisible 3840 2160 ltac:(lia) ltac:(lia))
    as (H1 & _).
  destruct (canvasSize_exact_when_divisible 2000 2000 ltac:(lia) ltac:(lia))
    as (_ & _ & H3).
  split; [apply H1; [lia|lia|reflexivity] | apply H3; [reflexivity|lia]].
Defined.

Lemma nearlyRounded_collapse (s l r : Z) :
  0 <= s -> 0 < l -> nearlyRounded (s * 1920) l r ->
  (3840 * s < l -> r = 0) /\ (l < 3840 * s -> 1 <= r).
Proof.
  intros Hs Hl Hr. unfold nearlyRounded, isTie in Hr.
  rewrite roundHalfUp_scaled in Hr.
  replace (2 * (s * 1920) + l) with (3840 * s + l) in Hr by ring.
  pose proof (Z.div_mod (3840 * s + l) (2 * l) ltac:(lia)) as Hdm.
  pose proof (Z.mod_pos_bound (3840 * s + l) (2 * l) ltac:(lia)) as Hb.
  set (E := (3840 * s + l) / (2 * l)) in *.
  assert (HE0 : 0 <= E) by (apply Z.div_pos; lia).
  split; intros Hcmp.
  - assert (E = 0) by (apply Z.div_small; lia).
    destruct Hr as [->|[Htie ->]]; [done|]. rewrite Htie in Hdm. nia.
  - assert (1 <= E) by (apply Z.div_le_lower_bound; lia).
    destruct Hr as [->|[Htie ->]]; [done|]. rewrite Htie in Hdm. nia.
Qed.

(** An image more than 3840 times longer than it is wide (or the reverse)
    is drawn on a canvas whose smaller side is 0; when the ratio is below
    3840 the smaller side is at least 1. *)
Theorem canvasSize_elongated (w h : Z) :
  0 <= h < w -> 1920 < w < 2 ^ 32 ->
  (3840 * h < w ->
     canvasSize w h 1920 = (1920, 0) /\ canvasSize h w 1920 = (0, 1920)) /\
  (w < 3840 * h ->
     1 <= snd (canvasSize w h 1920) /\ 1 <= fst (canvasSize h w 1920)).
Proof.
  intros Hh Hw.
  destruct (canvasSize_wide w h ltac:(lia) ltac:(lia)) as (r & -> & Hn & _).
  destruct (canvasSize_tall h w ltac:(lia) ltac:(lia)) as (r' & -> & Hn' & _).
  destruct (nearlyRounded_collapse h w r ltac:(lia) ltac:(lia) Hn) as [H0 H1].
  destruct (nearlyRounded_collapse h w r' ltac:(lia) ltac:(lia) Hn') as [H0' H1'].
  split; intros Hcmp; simpl.
  - by rewrite H0, H0'.
  - split; [by apply H1 | by apply H1'].
Qed.

Lemma canvasSize_elongated_witness :
  canvasSize 10000 1 1920 = (1920, 0) /\ canvasSize 1 10000 1920 = (0, 1920).
Proof.
  destruct (canvasSize_elongated 10000 1 ltac:(lia) ltac:(lia)) as (H & _).
  apply H. lia.
Defined.

(** ** [handleRemoveImage]: retries, order of removals, unique ids *)

(** Removing an id twice is the same as removing it once, and two removals
    can be done in either order. *)
Theorem handleRemoveImage_idempotent_commutes (i j : string) (s : Session) :
  handleRemoveImage i (handleRemoveImage i s) = handleRemoveImage i s /\
  handleRemoveImage i (handleRemoveImage j s)
    = handleRemoveImage j (handleRemoveImage i s).
Proof.
  unfold handleRemoveImage, setImages; simpl. split; f_equal.
  - rewrite list_filter_filter. apply list_filter_iff. tauto.
  - rewrite !list_filter_filter. apply list_filter_iff. tauto.
Qed.

Lemma filter_id_length (i : string) (l : list Frame) (f : Frame) :
  NoDup (map id l) -> f ∈ l -> id f = i ->
  S (length (filter (fun img => id img <> i) l)) = length l.
Proof.
  induction l as [|x l IH]; intros Hnd Hin Hid.
  - by apply elem_of_nil in Hin.
  - simpl in Hnd. apply NoDup_cons in Hnd as [Hx Hnd].
    destruct (decide (id x = i)) as [Hxi|Hxi].
    + rewrite filter_cons_False by tauto. simpl. f_equal.
      rewrite filter_id_absent; [done|].
      intros img Himg Heq. apply Hx. rewrite Hxi, <- Heq.
      apply list_elem_of_fmap. eauto.
    + rewrite filter_cons_True by done. simpl. f_equal.
      apply IH; [done| |done].
      apply elem_of_cons in Hin as [->|Hin]; [congruence|done].
Qed.

(** In a collection without duplicate ids, removing the id of a frame of
    the collection removes exactly one frame, and the ids stay distinct. *)
Theorem handleRemoveImage_removes_one (i : string) (s : Session) (f : Frame) :
  NoDup (map id (images s)) -> f ∈ images s -> id f = i ->
  S (length (images (handleRemoveImage i s))) = length (images s) /\
  (f ∉ images (handleRemoveImage i s)) /\
  NoDup (map id (images (handleRemoveImage i s))).
Proof.
  intros Hnd Hin Hid. unfold handleRemoveImage, setImages; simpl.
  split; [by eapply filter_id_length|]. split.
  - rewrite list_elem_of_filter. tauto.
  - eapply sublist_NoDup; [exact Hnd|].
    apply (fmap_sublist id), sublist_filter.
Qed.

Lemma handleRemoveImage_removes_one_witness :
  length (images (handleRemoveImage "b" threeFrames)) = 2%nat.
Proof.
  destruct (handleRemoveImage_removes_one "b" threeFrames frameB) as (H & _).
  - simpl. repeat constructor; rewrite ?list_elem_of_In; simpl;
      intros H; repeat (destruct H as [H|H]; [discriminate|]); exact H.
  - apply list_elem_of_In. simpl. tauto.
  - reflexivity.
  - by apply Nat.succ_inj in H.
Defined.

(** ** [handleCreateGif]: the other paths *)

(** When the encoder answers without error, the session ends in Animating
    with the image of the encoder, no error message, and the frames, the
    timing and the loading flag it had. *)
Theorem handleCreateGif_success (B : Browser) (s : Session)
    (img0 : Frame) (rest : list Frame) (firstImage : Image)
    (obj : Gifshot.Result) :
  images s = img0 :: rest ->
  (2 <= length (images s))%nat ->
  decode B (dataUrl img0) = Some firstImage ->
  createGIF B (optionsFor s firstImage) = Some obj ->
  Gifshot.error obj = false ->
  fst (handleCreateGif B s) =
    {| appState := Animating; images := images s;
       generatedGif := Some (Gifshot.image obj); loading := loading s;
       error := None; gifSpeed := gifSpeed s |}.
Proof.
  intros Himg Hlen Hdec Henc Herr.
  rewrite (handleCreateGif_decoded B s img0 rest firstImage Himg Hlen Hdec).
  rewrite Henc. unfold createGIF_callback. by rewrite Herr.
Qed.

Lemma handleCreateGif_success_witness :
  appState (fst (handleCreateGif sampleBrowser threeFrames)) = Animating /\
  generatedGif (fst (handleCreateGif sampleBrowser threeFrames))
    = Some "data:image/gif".
Proof.
  rewrite (handleCreateGif_success sampleBrowser threeFrames
             frameA [frameB; frameC]
             {| naturalWidth := 800; naturalHeight := 600 |}
             {| Gifshot.error := false; Gifshot.image := "data:image/gif";
                Gifshot.errorMsg := "" |});
    [split; reflexivity | reflexivity | simpl; lia | reflexivity
    | reflexivity | reflexivity].
Defined.

(** When the first frame cannot be decoded the encoder is never called:
    the session goes back to Capturing with the fixed message and the
    frames it had. *)
Theorem handleCreateGif_undecodable_first_frame (B : Browser) (s : Session)
    (img0 : Frame) (rest : list Frame) :
  images s = img0 :: rest ->
  (2 <= length (images s))%nat ->
  decode B (dataUrl img0) = None ->
  snd (handleCreateGif B s) = [] /\
  fst (handleCreateGif B s) =
    {| appState := Capturing; images := images s;
       generatedGif := generatedGif s; loading := loading s;
       error := Some "Không thể đọc kích thước ảnh để tạo GIF.";
       gifSpeed := gifSpeed s |}.
Proof.
  intros Himg Hlen Hdec. unfold handleCreateGif.
  rewrite handleCreateGif_begin_ok by exact Hlen.
  rewrite Himg, Hdec. split; [reflexivity|].
  unfold firstImage_onerror, setAppState, setError; simpl.
  by rewrite ?Himg.
Qed.

Lemma handleCreateGif_undecodable_first_frame_witness :
  snd (handleCreateGif sampleBrowser
         (setImages (fun _ => [ {| id := "x"; dataUrl := "data:corrupt.png" |};
                                frameA ]) threeFrames)) = [] /\
  appState (fst (handleCreateGif sampleBrowser
         (setImages (fun _ => [ {| id := "x"; dataUrl := "data:corrupt.png" |};
                                frameA ]) threeFrames))) = Capturing.
Proof.
  destruct (handleCreateGif_undecodable_first_frame sampleBrowser
              (setImages (fun _ => [ {| id := "x"; dataUrl := "data:corrupt.png" |};
                                     frameA ]) threeFrames)
              {| id := "x"; dataUrl := "data:corrupt.png" |} [frameA])
    as (H1 & H2); [reflexivity | simpl; lia | reflexivity |].
  split; [exact H1 | by rewrite H2].
Defined.

(** Whatever the browser and the encoder do, [handleCreateGif] keeps the
    frames, the timing and the loading flag, calls the encoder at most once,
    and never puts the session in the Error phase. *)
Theorem handleCreateGif_frame (B : Browser) (s : Session) :
  images (fst (handleCreateGif B s)) = images s /\
  gifSpeed (fst (handleCreateGif B s)) = gifSpeed s /\
  loading (fst (handleCreateGif B s)) = loading s /\
  (length (snd (handleCreateGif B s)) <= 1)%nat /\
  (appState (fst (handleCreateGif B s)) = Error -> appState s = Error).
Proof.
  unfold handleCreateGif, handleCreateGif_begin.
  destruct (Nat.ltb_spec (length (images s)) 2);
    [simpl; repeat split; auto; lia|].
  destruct (images s) as [|img0 rest] eqn:Himg;
    [simpl; rewrite Himg; repeat split; auto; try lia; discriminate|].
  destruct (decode B (dataUrl img0)) as [firstImage|].
  - unfold firstImage_onload.
    destruct (createGIF B _) as [obj|]; simpl.
    + unfold createGIF_callback. destruct (Gifshot.error obj); simpl;
        rewrite Himg; repeat split; auto; try lia; discriminate.
    + rewrite Himg. repeat split; auto; try lia; discriminate.
  - simpl. rewrite Himg. repeat split; auto; try lia; discriminate.
Qed.

(** Assembling successfully and then clicking Back gives the session the
    user started from, with the error message cleared: the frames and the
    timing survive the round trip and the GIF is gone. *)
Theorem handleCreateGif_then_handleBack (B : Browser) (s : Session)
    (img0 : Frame) (rest : list Frame) (firstImage : Image)
    (obj : Gifshot.Result) :
  images s = img0 :: rest ->
  (2 <= length (images s))%nat ->
  decode B (dataUrl img0) = Some firstImage ->
  createGIF B (optionsFor s firstImage) = Some obj ->
  Gifshot.error obj = false ->
  appState s = Capturing -> generatedGif s = None ->
  handleBack (fst (handleCreateGif B s)) = setError None s.
Proof.
  intros Himg Hlen Hdec Henc Herr Hphase Hgif.
  rewrite (handleCreateGif_decoded B s img0 rest firstImage Himg Hlen Hdec).
  rewrite Henc. unfold createGIF_callback. rewrite Herr.
  unfold handleBack, setError, setGeneratedGif, setAppState; simpl.
  by rewrite Hphase, Hgif.
Qed.

Lemma handleCreateGif_then_handleBack_witness :
  handleBack (fst (handleCreateGif sampleBrowser threeFrames)) = threeFrames.
Proof.
  rewrite (handleCreateGif_then_handleBack sampleBrowser threeFrames
             frameA [frameB; frameC]
             {| naturalWidth := 800; naturalHeight := 600 |}
             {| Gifshot.error := false; Gifshot.image := "data:image/gif";
                Gifshot.errorMsg := "" |});
    [reflexivity | reflexivity | simpl; lia | reflexivity
    | reflexivity | reflexivity | reflexivity | reflexivity].
Defined.

Lemma isCreateDisabled_enabled (s : Session) :
  isCreateDisabled s = false ->
  (2 <= length (images s))%nat /\ loading s = false.
Proof.
  unfold isCreateDisabled. intros H. apply orb_false_iff in H as [Hlen Hload].
  apply Nat.ltb_ge in Hlen. split; [lia|done].
Qed.

(** When the Create button is enabled, the guard of [handleCreateGif] is
    not taken: the click enters Processing and clears the error, so the
    validation message cannot be produced through the button. *)
Theorem isCreateDisabled_guards_handleCreateGif (s : Session) :
  isCreateDisabled s = false ->
  handleCreateGif_begin s = (setError None (setAppState Processing s), true) /\
  (2 <= length (images s))%nat /\ loading s = false.
Proof.
  intros H. destruct (isCreateDisabled_enabled s H) as [Hlen Hload].
  split; [by apply handleCreateGif_begin_ok|]. done.
Qed.

Lemma isCreateDisabled_guards_handleCreateGif_witness :
  appState (fst (handleCreateGif_begin threeFrames)) = Processing /\
  isCreateDisabled oneFrame = true.
Proof.
  destruct (isCreateDisabled_guards_handleCreateGif threeFrames) as (H & _);
    [reflexivity|].
  split; [by rewrite H | reflexivity].
Defined.

(** ** [handleFileChange]: what every batch keeps *)

(** Whatever the files, the browser and the order of completion, an upload
    keeps the phase, the assembled GIF and the timing, and the frames that
    were in the collection stay where they were: new frames only come after
    them. *)
Theorem handleFileChange_frame (B : Browser) (files : option (list File))
    (sched : list nat) (s : Session) :
  appState (handleFileChange B files sched s) = appState s /\
  generatedGif (handleFileChange B files sched s) = generatedGif s /\
  gifSpeed (handleFileChange B files sched s) = gifSpeed s /\
  exists new, images (handleFileChange B files sched s) = images s ++ new.
Proof.
  unfold handleFileChange.
  destruct files as [[|f0 fs]|]; try (repeat split; try done; exists []; by rewrite app_nil_r).
  destruct (outcome _) as [[vs|err]|]; simpl; repeat split; try done;
    try (exists []; by rewrite app_nil_r).
  by exists (newImages vs).
Qed.

Section BatchSteps.
Local Open Scope nat_scope.
Variable B : Browser.
Variable files : list File.

Lemma settle_fired_other (b : Batch) (i j : nat) :
  j <> i -> fired (settle B files b i) !! j = fired b !! j.
Proof.
  intros Hne. unfold settle.
  destruct (files !! i) as [file|]; [|done].
  destruct (fired b !! i) as [[|]|]; [done| |done].
  destruct (filePromise B file) as [[[p|]|err]|]; simpl;
    rewrite ?list_lookup_insert_ne by done; done.
Qed.

Lemma foldl_settle_fired_other (order : list nat) (b : Batch) (j : nat) :
  j ∉ order -> fired (foldl (settle B files) b order) !! j = fired b !! j.
Proof.
  revert b. induction order as [|i order IH]; intros b Hj; [done|].
  apply not_elem_of_cons in Hj as [Hne Hj]. simpl.
  rewrite IH by done. by apply settle_fired_other.
Qed.

Lemma settle_fired_hanging (b : Batch) (i j : nat) (file : File) :
  files !! j = Some file -> filePromise B file = None ->
  fired (settle B files b i) !! j = fired b !! j.
Proof.
  intros Hfile Hhang. destruct (decide (j = i)) as [->|Hne];
    [|by apply settle_fired_other].
  unfold settle. rewrite Hfile, Hhang.
  destruct (fired b !! i) as [[|]|] eqn:Hf; simpl; by rewrite ?Hf.
Qed.

Lemma foldl_settle_fired_hanging (order : list nat) (b : Batch) (j : nat)
    (file : File) :
  files !! j = Some file -> filePromise B file = None ->
  fired (foldl (settle B files) b order) !! j = fired b !! j.
Proof.
  intros Hfile Hhang. revert b.
  induction order as [|i order IH]; intros b; [done|].
  simpl. rewrite IH. by eapply settle_fired_hanging.
Qed.

Lemma settle_outcome_stable (b : Batch) (i : nat)
    (r : Settled (list (option (option Frame)))) :
  outcome b = Some r -> outcome (settle B files b i) = Some r.
Proof.
  intros Hr. unfold settle.
  destruct (files !! i) as [file|]; [|done].
  destruct (fired b !! i) as [[|]|]; [done| |done].
  destruct (filePromise B file) as [[[p|]|err]|]; simpl; rewrite ?Hr;
    try done; by destruct (Nat.eqb _ _).
Qed.

Lemma foldl_settle_outcome_stable (order : list nat) (b : Batch)
    (r : Settled (list (option (option Frame)))) :
  outcome b = Some r -> outcome (foldl (settle B files) b order) = Some r.
Proof.
  revert b. induction order as [|i order IH]; intros b Hr; [done|].
  simpl. apply IH. by apply settle_outcome_stable.
Qed.

Lemma nonImages_spec (fs : list File) (k j : nat) :
  j ∈ nonImages fs k ->
  exists file, k <= j /\ fs !! (j - k) = Some file /\
               String.prefix "image/" (type file) = false.
Proof.
  revert k. induction fs as [|f fs IH]; intros k Hj; simpl in Hj.
  - by apply elem_of_nil in Hj.
  - destruct (String.prefix "image/" (type f)) eqn:Hp; simpl in Hj.
    + destruct (IH (S k) Hj) as (file & Hk & Hfile & Hpre).
      exists file. split; [lia|]. split; [|done].
      replace (j - k) with (S (j - S k)) by lia. done.
    + apply elem_of_cons in Hj as [->|Hj].
      * exists f. rewrite Nat.sub_diag. by repeat split.
      * destruct (IH (S k) Hj) as (file & Hk & Hfile & Hpre).
        exists file. split; [lia|]. split; [|done].
        replace (j - k) with (S (j - S k)) by lia. done.
Qed.

Lemma nonImages_not_image (j : nat) (file : File) :
  files !! j = Some file -> String.prefix "image/" (type file) = true ->
  j ∉ nonImages files 0.
Proof.
  intros Hfile Himg Hin.
  destruct (nonImages_spec files 0 j Hin) as (file' & _ & Hfile' & Hpre).
  rewrite Nat.sub_0_r in Hfile'. congruence.
Qed.

Lemma filePromise_not_image (file : File) :
  String.prefix "image/" (type file) = false ->
  filePromise B file = Some (Resolve None).
Proof. intros H. unfold filePromise. by rewrite H. Qed.

(** Settling a file that does not reject never rejects the combined
    promise. *)
Lemma settle_no_reject (b : Batch) (i : nat) :
  (forall file e, files !! i = Some file ->
     filePromise B file <> Some (Reject e)) ->
  (forall e, outcome b <> Some (Reject e)) ->
  forall e, outcome (settle B files b i) <> Some (Reject e).
Proof.
  intros Hfile Hb e. unfold settle.
  destruct (files !! i) as [file|]; [|apply Hb].
  destruct (fired b !! i) as [[|]|]; [apply Hb| |apply Hb].
  destruct (filePromise B file) as [[[p|]|err]|] eqn:Hp; simpl.
  - destruct (Nat.eqb _ _); [|apply Hb].
    destruct (outcome b) as [r|] eqn:Ho; [apply Hb|done].
  - destruct (Nat.eqb _ _); [|apply Hb].
    destruct (outcome b) as [r|] eqn:Ho; [apply Hb|done].
  - by destruct (Hfile file err).
  - apply Hb.
Qed.

Lemma foldl_settle_no_reject (order : list nat) (b : Batch) :
  (forall i file e, i ∈ order -> files !! i = Some file ->
     filePromise B file <> Some (Reject e)) ->
  (forall e, outcome b <> Some (Reject e)) ->
  forall e, outcome (foldl (settle B files) b order) <> Some (Reject e).
Proof.
  revert b. induction order as [|i order IH]; intros b Hfiles Hb; [done|].
  simpl. apply IH.
  - intros j file e Hj. apply Hfiles. by right.
  - apply settle_no_reject; [|done].
    intros file e. apply Hfiles. by left.
Qed.

(** The first failure that is delivered decides the combined promise. *)
Lemma runBatch_first_failure (pre post : list nat) (k : nat) (file : File)
    (e : Thrown) :
  files !! k = Some file -> filePromise B file = Some (Reject e) ->
  (forall j file' e', j ∈ pre -> files !! j = Some file' ->
     filePromise B file' <> Some (Reject e')) ->
  outcome (runBatch B files (pre ++ k :: post)) = Some (Reject e).
Proof.
  intros Hfile Hp Hpre. unfold runBatch.
  rewrite app_assoc, foldl_app. simpl.
  apply foldl_settle_outcome_stable.
  set (order := nonImages files 0 ++ pre).
  set (b := foldl (settle B files) (newBatch (length files)) order).
  pose proof (foldl_settle_inv B files order _ (newBatch_inv B files)) as Hinv.
  fold b in Hinv.
  assert (Himage : String.prefix "image/" (type file) = true).
  { destruct (String.prefix "image/" (type file)) eqn:Hpre'; [done|].
    rewrite filePromise_not_image in Hp by done. discriminate. }
  assert (Hk : k ∉ order).
  { intros [Hin|Hin]%elem_of_app.
    - by apply (nonImages_not_image k file Hfile Himage).
    - by apply (Hpre k file e Hin Hfile). }
  assert (Hfired : fired b !! k = Some false).
  { unfold b. rewrite foldl_settle_fired_other by done.
    simpl. apply lookup_replicate_2. by eapply lookup_lt_Some. }
  assert (Hnone : outcome b = None).
  { destruct (outcome b) as [[vs|e']|] eqn:Ho; [| |done].
    - destruct (inv_resolved B files _ Hinv vs Ho) as [Hz _].
      pose proof (inv_pending B files _ Hinv).
      pose proof (pending_unfired _ _ Hfired). lia.
    - exfalso. revert Ho. apply foldl_settle_no_reject; [|done].
      intros j file' e'' [Hin|Hin]%elem_of_app Hj.
      + destruct (nonImages_spec files 0 j Hin) as (f' & _ & Hf' & Hpre').
        rewrite Nat.sub_0_r in Hf'. simplify_eq.
        by rewrite filePromise_not_image.
      + by eapply Hpre. }
  unfold settle. rewrite Hfile, Hfired, Hp. simpl. by rewrite Hnone.
Qed.
End BatchSteps.

(** The message that a failed batch stores in the [error] hook is the one
    of the first failure delivered, whatever fails or succeeds afterwards;
    the frames are the ones held before. *)
Theorem handleFileChange_first_error_wins (B : Browser) (files : list File)
    (pre post : list nat) (s : Session) (k : nat) (file : File) (m : string) :
  files !! k = Some file ->
  filePromise B file = Some (Reject (ErrorObj m)) ->
  (forall j file' e', j ∈ pre -> files !! j = Some file' ->
     filePromise B file' <> Some (Reject e')) ->
  error (handleFileChange B (Some files) (pre ++ k :: post) s) = Some m /\
  images (handleFileChange B (Some files) (pre ++ k :: post) s) = images s.
Proof.
  intros Hfile Hp Hpre. unfold handleFileChange.
  destruct files as [|f0 fs]; [by rewrite lookup_nil in Hfile|].
  by rewrite (runBatch_first_failure B _ pre post k file _ Hfile Hp Hpre).
Qed.

Lemma handleFileChange_first_error_wins_witness :
  error (handleFileChange sampleBrowser
           (Some [ {| name := "broken.png"; type := "image/png" |};
                   {| name := "a.png"; type := "image/png" |};
                   {| name := "corrupt.png"; type := "image/png" |} ])
           [1; 2; 0]%nat threeFrames)
    = Some "Failed to load image for processing.".
Proof.
  destruct (handleFileChange_first_error_wins sampleBrowser
              [ {| name := "broken.png"; type := "image/png" |};
                {| name := "a.png"; type := "image/png" |};
                {| name := "corrupt.png"; type := "image/png" |} ]
              [1%nat] [0%nat] threeFrames 2%nat
              {| name := "corrupt.png"; type := "image/png" |}
              "Failed to load image for processing.") as (H & _);
    [reflexivity | reflexivity | | exact H].
  intros j file' e' Hj Hfile'. apply list_elem_of_singleton in Hj as ->.
  simpl in Hfile'. injection Hfile' as <-. discriminate.
Defined.

(** ** [handleFileChange]: waiting, ignored files, fresh ids *)

Section QuietBatch.
Local Open Scope nat_scope.
Variable B : Browser.
Variable files : list File.
Hypothesis files_nonempty : 0 < length files.

(** A completion that is not a rejection keeps the combined promise in
    step with the count of pending files, whatever the files that have not
    completed are going to do. *)
Lemma settle_quiet_inv (b : Batch) (i : nat) :
  (forall file e, files !! i = Some file ->
     filePromise B file <> Some (Reject e)) ->
  success_inv B files b -> success_inv B files (settle B files b i).
Proof.
  intros no_reject Hb. unfold settle.
  destruct (files !! i) as [file|] eqn:Hfile; [|done].
  destruct (fired b !! i) as [[|]|] eqn:Hfi; [done| |done].
  destruct (filePromise B file) as [[v|err]|] eqn:Hp.
  - assert (Hs : settle B files b i =
                 match v with
                 | Some processedImage =>
                     allResolve i
                       (Some {| id := randomUUID B (uuids b);
                                dataUrl := processedImage |})
                       (drawUUID (markFired i b))
                 | None => allResolve i None (markFired i b)
                 end).
    { unfold settle. rewrite Hfile, Hfi, Hp. by destruct v. }
    destruct Hb as [Hfl Hvl Hc Hw Hd Hs'].
    pose proof (pending_insert _ _ Hfi) as Hpi.
    assert (Hi : i < length (values b)).
    { rewrite Hvl. by eapply lookup_lt_Some. }
    assert (Hslots : forall (x : option Frame) j file',
      slot_ok B file x -> files !! j = Some file' ->
      <[i:=true]> (fired b) !! j = Some true ->
      exists v', <[i:=Some x]> (values b) !! j = Some (Some v') /\
                 slot_ok B file' v').
    { intros x j file' Hx Hj Hfj. destruct (decide (j = i)) as [->|Hne].
      - rewrite list_lookup_insert_eq by done. simplify_eq. eauto.
      - rewrite list_lookup_insert_ne in Hfj by done.
        rewrite list_lookup_insert_ne by done. eauto. }
    destruct v as [p|]; split; simpl;
      rewrite ?length_insert; try done; try lia.
    + intros Hpos. destruct (Nat.eqb_spec (pred (remaining b)) 0); [lia|].
      apply Hw. lia.
    + intros Hz. rewrite Hz. simpl. by rewrite Hw by lia.
    + intros j file'. apply Hslots. unfold slot_ok. rewrite Hp. eauto.
    + intros Hpos. destruct (Nat.eqb_spec (pred (remaining b)) 0); [lia|].
      apply Hw. lia.
    + intros Hz. rewrite Hz. simpl. by rewrite Hw by lia.
    + intros j file'. apply Hslots. unfold slot_ok. by rewrite Hp.
  - by destruct (no_reject file err eq_refl).
  - done.
Qed.

Lemma foldl_settle_quiet_inv (order : list nat) (b : Batch) :
  (forall i file e, i ∈ order -> files !! i = Some file ->
     filePromise B file <> Some (Reject e)) ->
  success_inv B files b -> success_inv B files (foldl (settle B files) b order).
Proof.
  revert b. induction order as [|i order IH]; intros b Hq Hb; [exact Hb|].
  simpl. apply IH.
  - intros j file e Hj. apply Hq. by right.
  - apply settle_quiet_inv; [|exact Hb].
    intros file e. apply Hq. by left.
Qed.

(** While no completion delivered so far is a rejection and an image of
    the batch has not been read and normalised, the combined promise stays
    pending. *)
Lemma runBatch_pending (sched : list nat) (k : nat) (file : File) :
  (forall i file' e, i ∈ sched -> files !! i = Some file' ->
     filePromise B file' <> Some (Reject e)) ->
  files !! k = Some file ->
  String.prefix "image/" (type file) = true ->
  k ∉ sched \/ filePromise B file = None ->
  outcome (runBatch B files sched) = None.
Proof.
  intros Hquiet Hfile Himg Hwait. unfold runBatch.
  set (order := nonImages files 0 ++ sched).
  assert (Hq : forall i file' e, i ∈ order -> files !! i = Some file' ->
                 filePromise B file' <> Some (Reject e)).
  { intros i file' e [Hin|Hin]%elem_of_app Hi; [|by eapply Hquiet].
    destruct (nonImages_spec files 0 i Hin) as (f' & _ & Hf' & Hpre).
    rewrite Nat.sub_0_r in Hf'. simplify_eq.
    by rewrite filePromise_not_image. }
  pose proof (foldl_settle_quiet_inv order _ Hq
                (newBatch_success_inv B files files_nonempty)) as Hinv.
  set (b := foldl (settle B files) (newBatch (length files)) order) in *.
  assert (Hinit : fired (newBatch (length files)) !! k = Some false).
  { simpl. apply lookup_replicate_2. by eapply lookup_lt_Some. }
  assert (Hfired : fired b !! k = Some false).
  { unfold b. destruct Hwait as [Hsched|Hhang].
    - rewrite foldl_settle_fired_other; [done|].
      intros [Hin|Hin]%elem_of_app; [|done].
      by apply (nonImages_not_image files k file Hfile Himg).
    - by rewrite (foldl_settle_fired_hanging B files order _ k file Hfile Hhang). }
  apply (sinv_waiting B files _ Hinv).
  rewrite (sinv_count B files _ Hinv). by eapply pending_unfired.
Qed.
End QuietBatch.

(** As long as no file of the batch has failed so far (none of the
    completions delivered is a rejection; a file that has not completed
    may be one that is going to fail) and an image of the batch has not
    been read and normalised (its reader has not completed, or never
    delivers a result), nothing is appended: the session is the one left by
    the beginning of the handler, with the error cleared and the loading
    flag set. *)
Theorem handleFileChange_waits_for_every_file (B : Browser)
    (files : list File) (sched : list nat) (s : Session) (k : nat)
    (file : File) :
  (forall i file' e, i ∈ sched -> files !! i = Some file' ->
     filePromise B file' <> Some (Reject e)) ->
  files !! k = Some file ->
  String.prefix "image/" (type file) = true ->
  k ∉ sched \/ filePromise B file = None ->
  handleFileChange B (Some files) sched s = setLoading true (setError None s).
Proof.
  intros Hquiet Hfile Himg Hwait.
  assert (Hlen : (0 < length files)%nat).
  { destruct files; [by rewrite lookup_nil in Hfile | simpl; lia]. }
  pose proof (runBatch_pending B files Hlen sched k file
                Hquiet Hfile Himg Hwait) as Hout.
  unfold handleFileChange.
  destruct files as [|f0 fs]; [by rewrite lookup_nil in Hfile|].
  by rewrite Hout.
Qed.

Lemma handleFileChange_waits_for_every_file_witness :
  filePromise sampleBrowser {| name := "corrupt.png"; type := "image/png" |} =
    Some (Reject (ErrorObj "Failed to load image for processing.")) /\
  loading (handleFileChange sampleBrowser
             (Some [ {| name := "corrupt.png"; type := "image/png" |};
                     {| name := "a.png"; type := "image/png" |} ])
             [1%nat] threeFrames) = true /\
  images (handleFileChange sampleBrowser
             (Some [ {| name := "corrupt.png"; type := "image/png" |};
                     {| name := "a.png"; type := "image/png" |} ])
             [1%nat] threeFrames) = [frameA; frameB; frameC] /\
  error (handleFileChange sampleBrowser
             (Some [ {| name := "corrupt.png"; type := "image/png" |};
                     {| name := "a.png"; type := "image/png" |} ])
             [1%nat] threeFrames) = None.
Proof.
  split; [reflexivity|].
  rewrite (handleFileChange_waits_for_every_file sampleBrowser
             [ {| name := "corrupt.png"; type := "image/png" |};
               {| name := "a.png"; type := "image/png" |} ]
             [1%nat] threeFrames 0%nat
             {| name := "corrupt.png"; type := "image/png" |}).
  - repeat split; reflexivity.
  - intros i file' e Hin%list_elem_of_singleton Hf. subst i.
    simpl in Hf. injection Hf as <-. discriminate.
  - reflexivity.
  - reflexivity.
  - left. intros Hin. apply list_elem_of_singleton in Hin. discriminate.
Defined.

Lemma normalizedInOrder_non_images (B : Browser) (files : list File) :
  (forall file, file ∈ files -> String.prefix "image/" (type file) = false) ->
  normalizedInOrder B files = [].
Proof.
  unfold normalizedInOrder. induction files as [|f fs IH]; intros H; [done|].
  simpl. rewrite filePromise_not_image by (apply H; left).
  apply IH. intros file Hin. apply H. by right.
Qed.

(** A selection that holds no image file is ignored without a message: no
    frame is added, the error is cleared and the loading flag is off again,
    whatever the readers do. *)
Theorem handleFileChange_ignores_non_images (B : Browser) (files : list File)
    (sched : list nat) (s : Session) :
  files <> [] ->
  (forall file, file ∈ files -> String.prefix "image/" (type file) = false) ->
  handleFileChange B (Some files) sched s = setLoading false (setError None s).
Proof.
  intros Hne Hnon.
  assert (Hlen : (0 < length files)%nat).
  { destruct files; [done | simpl; lia]. }
  assert (Hall : forall i file, files !! i = Some file ->
                   exists v, filePromise B file = Some (Resolve v)).
  { intros i file Hfile. exists None. apply filePromise_not_image.
    apply Hnon. by eapply list_elem_of_lookup_2. }
  destruct (runBatch_resolved B files Hlen Hall sched) as (vs & Hout & Hvs).
  { intros i file Hfile Himg.
    rewrite Hnon in Himg by (by eapply list_elem_of_lookup_2). discriminate. }
  rewrite normalizedInOrder_non_images in Hvs by done.
  apply fmap_nil_inv in Hvs.
  unfold handleFileChange. destruct files as [|f0 fs]; [done|].
  rewrite Hout, Hvs. unfold setLoading, setImages, setError; simpl.
  by rewrite app_nil_r.
Qed.

Lemma handleFileChange_ignores_non_images_witness :
  handleFileChange sampleBrowser
    (Some [ {| name := "notes.txt"; type := "text/plain" |} ]) [] withError
  = setError None withError.
Proof.
  rewrite (handleFileChange_ignores_non_images sampleBrowser
             [ {| name := "notes.txt"; type := "text/plain" |} ] [] withError).
  - reflexivity.
  - discriminate.
  - intros file Hin. apply list_elem_of_singleton in Hin as ->. reflexivity.
Defined.

Lemma newImages_insert_null (vs : list (option (option Frame))) (i : nat) :
  vs !! i = Some None -> newImages (<[i := Some None]> vs) = newImages vs.
Proof.
  unfold newImages. revert i.
  induction vs as [|v vs IH]; intros [|i] H; simplify_eq/=; [done|].
  by rewrite IH.
Qed.

Lemma newImages_insert_frame (vs : list (option (option Frame))) (i : nat)
    (f : Frame) :
  vs !! i = Some None ->
  newImages (<[i := Some (Some f)]> vs) ≡ₚ f :: newImages vs.
Proof.
  unfold newImages. revert i.
  induction vs as [|v vs IH]; intros [|i] H; simplify_eq/=; [done|].
  destruct v as [[g|]|]; simpl.
  - rewrite IH by done. apply Permutation_swap.
  - by apply IH.
  - by apply IH.
Qed.

Section FreshIds.
Local Open Scope nat_scope.
Variable B : Browser.
Variable files : list File.
Hypothesis randomUUID_inj : forall k1 k2,
  randomUUID B k1 = randomUUID B k2 -> k1 = k2.

Lemma newBatch_ids_inv (n : nat) : batch_ids_inv B (newBatch n).
Proof.
  assert (Hnil : newImages (replicate n None) = []).
  { unfold newImages. induction n as [|n IH]; [done|]. simpl. exact IH. }
  unfold batch_ids_inv. simpl. rewrite Hnil. split; [|split].
  - intros i Hi. apply lookup_replicate in Hi as [_ Hi].
    by apply lookup_replicate_2.
  - constructor.
  - intros f Hf. by apply elem_of_nil in Hf.
Qed.

Lemma settle_ids_inv (b : Batch) (i : nat) :
  batch_ids_inv B b -> batch_ids_inv B (settle B files b i).
Proof.
  intros (Hholes & Hnd & Hdrawn). unfold settle.
  destruct (files !! i) as [file|]; [|done].
  destruct (fired b !! i) as [[|]|] eqn:Hfi; [done| |done].
  pose proof (Hholes i Hfi) as Hslot.
  assert (Hi : i < length (fired b)) by (by eapply lookup_lt_Some).
  assert (Hholes' : forall x j,
    <[i:=true]> (fired b) !! j = Some false ->
    <[i:=x]> (values b) !! j = Some None).
  { intros x j Hj. destruct (decide (j = i)) as [->|Hne].
    - rewrite list_lookup_insert_eq in Hj by done. discriminate.
    - rewrite list_lookup_insert_ne in Hj by done.
      rewrite list_lookup_insert_ne by done. by apply Hholes. }
  destruct (filePromise B file) as [[[p|]|err]|]; [| | |done].
  - unfold batch_ids_inv; simpl.
    set (f := {| id := randomUUID B (uuids b); dataUrl := p |}).
    pose proof (newImages_insert_frame (values b) i f Hslot) as Hperm.
    split; [apply Hholes'|]. split.
    + rewrite Hperm. simpl. apply NoDup_cons. split; [|done].
      intros (g & Hg & Hin)%list_elem_of_fmap.
      destruct (Hdrawn g Hin) as (k & Hk & Hidk).
      simpl in Hg. rewrite Hidk in Hg. apply randomUUID_inj in Hg. lia.
    + intros g Hg. rewrite Hperm in Hg.
      apply elem_of_cons in Hg as [->|Hg].
      * exists (uuids b). split; [lia|done].
      * destruct (Hdrawn g Hg) as (k & Hk & Hidk). exists k. split; [lia|done].
  - unfold batch_ids_inv; simpl.
    rewrite newImages_insert_null by done.
    split; [apply Hholes'|]. split; [done|done].
  - unfold batch_ids_inv; simpl. split; [|split; done].
    intros j Hj. specialize (Hholes' (Some None) j Hj).
    destruct (decide (j = i)) as [->|Hne]; [done|].
    by rewrite list_lookup_insert_ne in Hholes' by done.
Qed.

Lemma foldl_settle_ids_inv (order : list nat) (b : Batch) :
  batch_ids_inv B b -> batch_ids_inv B (foldl (settle B files) b order).
Proof.
  revert b. induction order as [|i order IH]; intros b Hb; [exact Hb|].
  simpl. apply IH. by apply settle_ids_inv.
Qed.
End FreshIds.

(** When [crypto.randomUUID] never returns the same value twice, the
    frames appended by an upload have pairwise distinct ids, whatever the
    files and the order of completion. *)
Theorem handleFileChange_fresh_ids (B : Browser) (files : option (list File))
    (sched : list nat) (s : Session) (new : list Frame) :
  (forall k1 k2, randomUUID B k1 = randomUUID B k2 -> k1 = k2) ->
  images (handleFileChange B files sched s) = images s ++ new ->
  NoDup (map id new).
Proof.
  intros Hinj Hnew.
  assert (Hnil : images s = images s ++ new -> NoDup (map id new)).
  { intros H. rewrite <- (app_nil_r (images s)) in H at 1.
    apply app_inv_head in H as <-. constructor. }
  unfold handleFileChange in Hnew.
  destruct files as [[|f0 fs]|]; [by apply Hnil|  |by apply Hnil].
  set (fs' := f0 :: fs) in *.
  pose proof (foldl_settle_inv B fs' (nonImages fs' 0 ++ sched) _
                (newBatch_inv B fs')) as Hinv.
  pose proof (foldl_settle_ids_inv B fs' Hinj (nonImages fs' 0 ++ sched) _
                (newBatch_ids_inv B (length fs'))) as (_ & Hnd & _).
  fold (runBatch B fs' sched) in Hinv, Hnd.
  destruct (outcome (runBatch B fs' sched)) as [[vs|err]|] eqn:Hout;
    simpl in Hnew; [|by apply Hnil|by apply Hnil].
  destruct (inv_resolved B fs' _ Hinv vs Hout) as [_ ->].
  apply app_inv_head in Hnew as <-. exact Hnd.
Qed.

Lemma sampleId_inj (k1 k2 : nat) : sampleId k1 = sampleId k2 -> k1 = k2.
Proof.
  revert k2. induction k1 as [|k1 IH]; intros [|k2] H; simpl in H;
    [done|discriminate|discriminate|].
  f_equal. apply IH. by injection H.
Qed.

Lemma handleFileChange_fresh_ids_witness :
  NoDup [sampleId 1; sampleId 0].
Proof.
  apply (handleFileChange_fresh_ids sampleBrowser
           (Some [ {| name := "a.png"; type := "image/png" |};
                   {| name := "big.jpg"; type := "image/jpeg" |} ])
           [1; 0]%nat threeFrames
           [ {| id := sampleId 1; dataUrl := "png:data:a.png" |};
             {| id := sampleId 0; dataUrl := "png:data:big.jpg" |} ]).
  - exact sampleId_inj.
  - reflexivity.
Defined.

(** ** The event machine *)

Lemma renderContent_capture (s : Session) (frames : list Frame)
    (speed : Number.number) (u c : bool) :
  renderContent s = CaptureView frames speed u c ->
  appState s = Capturing /\ u = loading s /\ c = isCreateDisabled s.
Proof.
  unfold renderContent. destruct (appState s); try discriminate.
  - intros H. by injection H as <- <- <- <-.
  - destruct (generatedGif s) as [g|]; [destruct (String.eqb g "")|];
      discriminate.
Qed.

Lemma renderContent_player (s : Session) (gifUrl : string) :
  renderContent s = AnimationPlayerView gifUrl ->
  appState s = Animating /\ generatedGif s = Some gifUrl /\ gifUrl <> "".
Proof.
  unfold renderContent. destruct (appState s); try discriminate.
  destruct (generatedGif s) as [g|]; [|discriminate].
  destruct (String.eqb_spec g ""); [discriminate|].
  intros H. by injection H as <-.
Qed.

Lemma renderContent_error (s : Session) (m : option string) :
  renderContent s = ErrorView m -> appState s = Error.
Proof.
  unfold renderContent. destruct (appState s); try discriminate; [|done].
  destruct (generatedGif s) as [g|]; [destruct (String.eqb g "")|];
    discriminate.
Qed.

Lemma initialApp_inv : app_inv initialApp.
Proof.
  split; simpl; try done;
    try (split; [discriminate | by intros [? ?]]).
Qed.

(** In the capture view nothing is being assembled and no GIF is kept. *)
Lemma app_inv_capturing (a : App) :
  app_inv a -> appState (session a) = Capturing ->
  assembly a = None /\ generatedGif (session a) = None.
Proof.
  intros Hinv Hc. split.
  - destruct (assembly a) eqn:Ha; [|done].
    assert (appState (session a) = Processing)
      by (apply (ainv_processing a Hinv); by rewrite Ha).
    congruence.
  - destruct (generatedGif (session a)) eqn:Hg; [|done].
    assert (appState (session a) = Animating)
      by (apply (ainv_animating a Hinv); by rewrite Hg).
    congruence.
Qed.

Lemma awaitUpload_inv (fs : list File) (b : Batch) (a : App) :
  appState (session a) = Capturing -> loading (session a) = true ->
  assembly a = None -> generatedGif (session a) = None ->
  app_inv (awaitUpload fs b a).
Proof.
  intros Hc Hl Ha Hg. unfold awaitUpload.
  destruct (outcome b) as [r|]; split; simpl;
    try (destruct r as [vs|err]; simpl);
    rewrite ?Hc, ?Hl, ?Ha, ?Hg; try done; try congruence;
    try (split; [discriminate | by intros [? ?]]);
    try (split; [done | discriminate]).
  all: split; [done|]; by eexists.
Qed.

(** Every event keeps the invariant. *)
Lemma step_inv (B : Browser) (a : App) (e : Event) :
  app_inv a -> app_inv (step B a e).
Proof.
  intros Hinv. destruct e as [files|i|i|v| | | | |]; simpl.
  - (* files chosen *)
    destruct (renderContent (session a)) as [fr sp u c| | | |] eqn:Hv; try done.
    destruct u; [done|].
    destruct files as [[|f0 fs]|]; try done.
    apply renderContent_capture in Hv as (Hc & Hl & _).
    destruct (app_inv_capturing a Hinv Hc) as [Ha Hg].
    by apply awaitUpload_inv.
  - (* a reader completed *)
    destruct (upload a) as [[fs b]|] eqn:Hu; [|done].
    assert (Hc : appState (session a) = Capturing).
    { destruct (appState (session a)) eqn:Hs; [done|..];
        destruct (ainv_capturing a Hinv) as [Hn _]; congruence. }
    destruct (app_inv_capturing a Hinv Hc) as [Ha Hg].
    apply awaitUpload_inv; try done.
    apply (ainv_loading a Hinv). by rewrite Hu.
  - (* remove *)
    destruct (renderContent (session a)) as [fr sp u c| | | |] eqn:Hv; try done.
    apply renderContent_capture in Hv as (Hc & _ & _).
    destruct (app_inv_capturing a Hinv Hc) as [Ha Hg].
    destruct Hinv as [H1 H2 H3 H4 H5 H6 H7 H8].
    split; simpl; rewrite ?Hc, ?Ha, ?Hg in *; try done; congruence.
  - (* speed *)
    destruct (renderContent (session a)) as [fr sp u c| | | |] eqn:Hv; try done.
    apply renderContent_capture in Hv as (Hc & _ & _).
    destruct (app_inv_capturing a Hinv Hc) as [Ha Hg].
    destruct Hinv as [H1 H2 H3 H4 H5 H6 H7 H8].
    split; simpl; rewrite ?Hc, ?Ha, ?Hg in *; try done; congruence.
  - (* create *)
    destruct (renderContent (session a)) as [fr sp u c| | | |] eqn:Hv; try done.
    destruct c; [done|].
    apply renderContent_capture in Hv as (Hc & _ & Hen). symmetry in Hen.
    destruct (isCreateDisabled_enabled _ Hen) as (Hlen & Hl).
    rewrite handleCreateGif_begin_ok by done.
    destruct (app_inv_capturing a Hinv Hc) as [Ha Hg].
    assert (Hu : upload a = None).
    { destruct (upload a) eqn:Hu; [|done].
      assert (loading (session a) = true)
        by (apply (ainv_loading a Hinv); by rewrite Hu).
      congruence. }
    destruct (images (session a)) as [|img0 rest] eqn:Himg;
      [simpl in Hlen; lia|].
    split; simpl; rewrite ?Hl, ?Hu, ?Hg, ?Himg; try done.
    intros ? ? ? H. injection H as <- <- <-. eauto 10.
  - (* the first image settled *)
    destruct (assembly a) as [[urls itv src|options]|] eqn:Ha; try done.
    assert (Hp : appState (session a) = Processing)
      by (apply (ainv_processing a Hinv); by rewrite Ha).
    destruct (ainv_probing a Hinv _ _ _ Ha) as (-> & -> & _).
    assert (Hg : generatedGif (session a) = None).
    { destruct (generatedGif (session a)) eqn:Hg; [|done].
      assert (appState (session a) = Animating)
        by (apply (ainv_animating a Hinv); by rewrite Hg).
      congruence. }
    destruct (ainv_capturing a Hinv ltac:(congruence)) as [Hu Hlen].
    pose proof (ainv_loading a Hinv) as Hload.
    destruct (decode B src) as [firstImage|]; split; simpl;
      rewrite ?Hp, ?Hg, ?Hu in *; try done; try congruence.
    intros options H. injection H as <-. simpl.
    by rewrite last_snoc.
  - (* the encoder answered *)
    destruct (assembly a) as [[urls itv src|options]|] eqn:Ha; try done.
    destruct (createGIF B options) as [obj|]; [|done].
    assert (Hp : appState (session a) = Processing)
      by (apply (ainv_processing a Hinv); by rewrite Ha).
    destruct (ainv_encoding a Hinv _ Ha) as (Hlast & Himgs & Hitv).
    assert (Hg : generatedGif (session a) = None).
    { destruct (generatedGif (session a)) eqn:Hg; [|done].
      assert (appState (session a) = Animating)
        by (apply (ainv_animating a Hinv); by rewrite Hg).
      congruence. }
    destruct (ainv_capturing a Hinv ltac:(congruence)) as [Hu Hlen].
    pose proof (ainv_loading a Hinv) as Hload.
    unfold createGIF_callback.
    destruct (Gifshot.error obj); split; simpl;
      rewrite ?Hp, ?Hg, ?Hu in *; try done; try congruence.
    intros _. exists options. by repeat split.
  - (* back *)
    destruct (renderContent (session a)) as [| |g| |] eqn:Hv; try done.
    apply renderContent_player in Hv as (Han & Hg & _).
    assert (Ha : assembly a = None).
    { destruct (assembly a) eqn:Ha; [|done].
      assert (appState (session a) = Processing)
        by (apply (ainv_processing a Hinv); by rewrite Ha).
      congruence. }
    destruct (ainv_capturing a Hinv ltac:(congruence)) as [Hu Hlen].
    pose proof (ainv_loading a Hinv) as Hload.
    split; simpl; rewrite ?Ha, ?Hu in *; try done; try congruence.
  - (* retry *)
    destruct (renderContent (session a)) as [| | | |m] eqn:Hv; try done.
    apply renderContent_error in Hv. by destruct (ainv_no_error a Hinv).
Qed.

Lemma run_inv (B : Browser) (events : list Event) : app_inv (run B events).
Proof.
  unfold run. generalize initialApp_inv. generalize initialApp.
  induction events as [|e events IH]; intros a Ha; [done|].
  simpl. apply IH. by apply step_inv.
Qed.

(** The Error phase is never entered and its panel, the only place where
    the error message is displayed, is never rendered: after any sequence
    of events the page is the same whatever message the session holds. *)
Theorem error_message_never_rendered (B : Browser) (events : list Event)
    (m : option string) :
  appState (session (run B events)) <> Error /\
  renderContent (session (run B events)) <> ErrorView m /\
  renderContent (setError m (session (run B events)))
    = renderContent (session (run B events)).
Proof.
  pose proof (ainv_no_error _ (run_inv B events)) as Hne.
  split; [done|]. split.
  - intros Hv. by apply renderContent_error in Hv.
  - unfold renderContent. simpl.
    by destruct (appState (session (run B events))).
Qed.

(** While a GIF is displayed it is the one the encoder was last asked for,
    and that request was made from the frames and the timing the session
    still holds; there are at least two frames. *)
Theorem displayed_gif_matches_session (B : Browser) (events : list Event) :
  appState (session (run B events)) = Animating ->
  is_Some (generatedGif (session (run B events))) /\
  (2 <= length (images (session (run B events))))%nat /\
  exists options,
    last (encoderCalls (run B events)) = Some options /\
    Gifshot.images options = map dataUrl (images (session (run B events))) /\
    Gifshot.interval options
      = Number.div (gifSpeed (session (run B events))) (Number.of_Z 1000).
Proof.
  intros Han. pose proof (run_inv B events) as Hinv.
  split; [by apply (ainv_animating _ Hinv)|]. split.
  - apply (ainv_capturing _ Hinv). congruence.
  - by apply (ainv_shown _ Hinv).
Qed.

Lemma displayed_gif_matches_session_witness :
  appState (session (run sampleBrowser uploadAndCreate)) = Animating /\
  exists options,
    last (encoderCalls (run sampleBrowser uploadAndCreate)) = Some options /\
    Gifshot.images options = ["png:data:a.png"; "png:data:big.jpg"].
Proof.
  split; [reflexivity|].
  destruct (displayed_gif_matches_session sampleBrowser uploadAndCreate)
    as (_ & _ & options & H1 & H2 & _); [reflexivity|].
  exists options. split; [exact H1|]. rewrite H2. reflexivity.
Defined.

Lemma step_outside_capture (B : Browser) (a : App) (e : Event) :
  app_inv a -> appState (session a) <> Capturing ->
  images (session (step B a e)) = images (session a) /\
  gifSpeed (session (step B a e)) = gifSpeed (session a).
Proof.
  intros Hinv Hnc.
  destruct (ainv_capturing a Hinv Hnc) as [Hu _].
  assert (Hview : forall fr sp u c,
            renderContent (session a) <> CaptureView fr sp u c).
  { intros fr sp u c Hv. by apply renderContent_capture in Hv as (Hc & _). }
  destruct e as [files|i|i|v| | | | |]; simpl; rewrite ?Hu; try done.
  - destruct (renderContent (session a)) eqn:Hv; try done.
    by destruct (Hview _ _ _ _ eq_refl).
  - destruct (renderContent (session a)) eqn:Hv; try done.
    by destruct (Hview _ _ _ _ eq_refl).
  - destruct (renderContent (session a)) eqn:Hv; try done.
    by destruct (Hview _ _ _ _ eq_refl).
  - destruct (renderContent (session a)) eqn:Hv; try done.
    by destruct (Hview _ _ _ _ eq_refl).
  - destruct (assembly a) as [[urls itv src|options]|]; try done.
    by destruct (decode B src).
  - destruct (assembly a) as [[urls itv src|options]|]; try done.
    destruct (createGIF B options) as [obj|]; [|done].
    unfold createGIF_callback. by destruct (Gifshot.error obj).
  - by destruct (renderContent (session a)).
  - by destruct (renderContent (session a)).
Qed.

(** Outside the capture view no event changes the frames or the timing:
    while a GIF is being assembled or displayed, an upload cannot land, a
    frame cannot be removed and the slider cannot move. *)
Theorem frames_frozen_outside_capture (B : Browser) (events : list Event)
    (e : Event) :
  appState (session (run B events)) <> Capturing ->
  images (session (step B (run B events) e))
    = images (session (run B events)) /\
  gifSpeed (session (step B (run B events) e))
    = gifSpeed (session (run B events)).
Proof. apply step_outside_capture, run_inv. Qed.

Lemma frames_frozen_outside_capture_witness :
  images (session (step sampleBrowser (run sampleBrowser uploadAndCreate)
                     (RemoveClicked (sampleId 0))))
    = images (session (run sampleBrowser uploadAndCreate)).
Proof.
  destruct (frames_frozen_outside_capture sampleBrowser uploadAndCreate
              (RemoveClicked (sampleId 0))) as (H & _);
    [discriminate | exact H].
Defined.

(** A blank page is final: when the player has no GIF to show (the
    encoder reported success with an empty image), no event, from the user
    or from the browser, changes the component any more. *)
Theorem blank_page_is_final (B : Browser) (events : list Event) (e : Event) :
  renderContent (session (run B events)) = NothingView ->
  step B (run B events) e = run B events.
Proof.
  intros Hv. pose proof (run_inv B events) as Hinv.
  set (a := run B events) in *.
  assert (Han : appState (session a) = Animating).
  { unfold renderContent in Hv. by destruct (appState (session a)). }
  destruct (ainv_capturing a Hinv ltac:(congruence)) as [Hu _].
  assert (Ha : assembly a = None).
  { destruct (assembly a) eqn:Ha; [|done].
    assert (appState (session a) = Processing)
      by (apply (ainv_processing a Hinv); by rewrite Ha).
    congruence. }
  destruct e; simpl; by rewrite ?Hv, ?Hu, ?Ha.
Qed.

Lemma blank_page_is_final_witness :
  renderContent (session (run blankBrowser uploadAndCreate)) = NothingView /\
  step blankBrowser (run blankBrowser uploadAndCreate) BackClicked
    = run blankBrowser uploadAndCreate.
Proof.
  split; [reflexivity|].
  by apply (blank_page_is_final blankBrowser uploadAndCreate BackClicked).
Defined.

(** *** The handlers run to completion, against the machine *)

Lemma readers_without_upload (B : Browser) (sched : list nat) (a : App) :
  upload a = None -> foldl (step B) a (map ReaderCompleted sched) = a.
Proof.
  intros Hu. induction sched as [|i sched IH]; [done|].
  simpl. by rewrite Hu.
Qed.

(** The completions of a pending upload, one event at a time.  The
    machine stops listening when the combined promise settles, the
    handler of the batch listens to every completion of the schedule: the
    sessions agree, and so do the components while the promise is
    pending. *)
Lemma readers_with_upload (B : Browser) (fs : list File) (sched : list nat) :
  forall (a : App) (b : Batch),
    upload a = Some (fs, b) -> outcome b = None ->
    session (foldl (step B) a (map ReaderCompleted sched))
      = session (awaitUpload fs
                   (foldl (settle (afterUUIDs (uuidsDrawn a) B) fs) b sched) a) /\
    (outcome (foldl (settle (afterUUIDs (uuidsDrawn a) B) fs) b sched) = None ->
     foldl (step B) a (map ReaderCompleted sched)
       = awaitUpload fs
           (foldl (settle (afterUUIDs (uuidsDrawn a) B) fs) b sched) a).
Proof.
  induction sched as [|i sched IH]; intros a b Hu Hb.
  - simpl. unfold awaitUpload. rewrite Hb. split; [done|].
    intros _. destruct a; simpl in *. by rewrite Hu.
  - cbn [map foldl step]. rewrite Hu.
    set (B' := afterUUIDs (uuidsDrawn a) B).
    unfold awaitUpload at 1 3.
    destruct (outcome (settle B' fs b i)) as [r|] eqn:Ho.
    + rewrite !readers_without_upload by done.
      pose proof (foldl_settle_outcome_stable B' fs sched _ r Ho) as Hr.
      unfold awaitUpload. rewrite Hr. split; [done|]. discriminate.
    + set (a' := {| session := session a;
                    upload := Some (fs, settle B' fs b i);
                    assembly := assembly a;
                    encoderCalls := encoderCalls a;
                    uuidsDrawn := uuidsDrawn a |}).
      destruct (IH a' (settle B' fs b i) eq_refl Ho) as [Hs Ha].
      cbn [uuidsDrawn a'] in Hs, Ha. fold B' in Hs, Ha.
      assert (Heq : forall b', outcome b' = None ->
                awaitUpload fs b' a' = awaitUpload fs b' a).
      { intros b' Hb'. unfold awaitUpload. by rewrite Hb'. }
      split.
      * rewrite Hs. unfold awaitUpload.
        by destruct (outcome (foldl (settle B' fs) (settle B' fs b i) sched)).
      * intros Hn. rewrite (Ha Hn). by apply Heq.
Qed.

Lemma files_chosen_then_readers (B : Browser) (a : App) (f0 : File)
    (fs : list File) (sched : list nat) :
  appState (session a) = Capturing -> loading (session a) = false ->
  session (foldl (step B) a
             (FilesChosen (Some (f0 :: fs)) :: map ReaderCompleted sched))
    = session (awaitUpload (f0 :: fs)
                 (runBatch (afterUUIDs (uuidsDrawn a) B) (f0 :: fs) sched)
                 (withSession (setLoading true (setError None (session a))) a)) /\
  (outcome (runBatch (afterUUIDs (uuidsDrawn a) B) (f0 :: fs) sched) = None ->
   foldl (step B) a
     (FilesChosen (Some (f0 :: fs)) :: map ReaderCompleted sched)
     = awaitUpload (f0 :: fs)
         (runBatch (afterUUIDs (uuidsDrawn a) B) (f0 :: fs) sched)
         (withSession (setLoading true (setError None (session a))) a)).
Proof.
  intros Hc Hl. cbn [foldl step].
  unfold renderContent. rewrite Hc, Hl.
  set (B' := afterUUIDs (uuidsDrawn a) B).
  unfold runBatch. rewrite foldl_app.
  set (b0 := foldl (settle B' (f0 :: fs)) (newBatch (length (f0 :: fs)))
               (nonImages (f0 :: fs) 0)).
  set (a0 := withSession (setLoading true (setError None (session a))) a).
  unfold awaitUpload at 1 3.
  destruct (outcome b0) as [r|] eqn:Ho.
  - rewrite !readers_without_upload by done.
    pose proof (foldl_settle_outcome_stable B' (f0 :: fs) sched b0 r Ho) as Hr.
    unfold awaitUpload. rewrite Hr. split; [done|]. discriminate.
  - set (a' := {| session := session a0; upload := Some (f0 :: fs, b0);
                  assembly := assembly a0; encoderCalls := encoderCalls a0;
                  uuidsDrawn := uuidsDrawn a0 |}).
    destruct (readers_with_upload B (f0 :: fs) sched a' b0 eq_refl Ho)
      as [Hs Ha].
    cbn [uuidsDrawn a' a0 withSession] in Hs, Ha. fold B' in Hs, Ha.
    split.
    + rewrite Hs. unfold awaitUpload.
      by destruct (outcome (foldl (settle B' (f0 :: fs)) b0 sched)).
    + intros Hn. rewrite (Ha Hn). unfold awaitUpload. by rewrite Hn.
Qed.

(** Choosing files in the capture view and letting the readers complete,
    with no other event in between, leaves the session that
    [handleFileChange] computes for that order of completion, with the
    UUIDs that follow the ones already drawn. *)
Theorem upload_events_run_handleFileChange (B : Browser) (a : App)
    (files : option (list File)) (sched : list nat) :
  appState (session a) = Capturing -> loading (session a) = false ->
  upload a = None ->
  session (foldl (step B) a (FilesChosen files :: map ReaderCompleted sched))
    = handleFileChange (afterUUIDs (uuidsDrawn a) B) files sched (session a).
Proof.
  intros Hc Hl Hu.
  destruct files as [[|f0 fs]|].
  - cbn [foldl step]. unfold renderContent. rewrite Hc, Hl.
    by rewrite readers_without_upload.
  - destruct (files_chosen_then_readers B a f0 fs sched Hc Hl) as [-> _].
    unfold awaitUpload, handleFileChange.
    by destruct (outcome (runBatch _ (f0 :: fs) sched)) as [[vs|err]|].
  - cbn [foldl step]. unfold renderContent. rewrite Hc, Hl.
    by rewrite readers_without_upload.
Qed.

Lemma upload_events_run_handleFileChange_witness :
  session (foldl (step sampleBrowser) initialApp
             (FilesChosen (Some twoFiles) :: map ReaderCompleted [1; 0]%nat))
    = handleFileChange sampleBrowser (Some twoFiles) [1; 0]%nat initialSession.
Proof.
  rewrite (upload_events_run_handleFileChange sampleBrowser initialApp);
    reflexivity.
Defined.

Lemma runBatch_app (B : Browser) (fs : list File) (pre post : list nat) :
  runBatch B fs (pre ++ post)
    = foldl (settle B fs) (runBatch B fs pre) post.
Proof. unfold runBatch. rewrite app_assoc. apply foldl_app. Qed.

(** Removing a frame while an upload is still pending has the effect of
    removing it before the upload began: the frames of the batch are
    appended to the collection as it is when the batch resolves.  (The
    batch draws the UUIDs that follow the ones already drawn.) *)
Theorem remove_during_upload (B : Browser) (a : App) (files : list File)
    (pre post : list nat) (i : string) :
  appState (session a) = Capturing -> loading (session a) = false ->
  outcome (runBatch (afterUUIDs (uuidsDrawn a) B) files pre) = None ->
  files <> [] ->
  session (foldl (step B) a
             (FilesChosen (Some files) :: map ReaderCompleted pre
                ++ RemoveClicked i :: map ReaderCompleted post))
    = handleFileChange (afterUUIDs (uuidsDrawn a) B) (Some files) (pre ++ post)
        (handleRemoveImage i (session a)).
Proof.
  intros Hc Hl Hpre Hne.
  destruct files as [|f0 fs]; [done|].
  set (B' := afterUUIDs (uuidsDrawn a) B) in *.
  rewrite app_comm_cons, foldl_app.
  destruct (files_chosen_then_readers B a f0 fs pre Hc Hl) as [_ ->];
    [|exact Hpre].
  fold B'. unfold awaitUpload at 1. rewrite Hpre.
  cbn [foldl step session].
  assert (Hv : exists fr sp u c,
    renderContent
      (session (withSession (setLoading true (setError None (session a))) a))
    = CaptureView fr sp u c).
  { unfold renderContent. simpl. rewrite Hc. eauto. }
  destruct Hv as (fr & sp & u & c & ->).
  match goal with
  | |- session (foldl (step B) ?a1 _) = _ =>
      destruct (readers_with_upload B (f0 :: fs) post a1
                  (runBatch B' (f0 :: fs) pre) eq_refl Hpre) as [-> _]
  end.
  cbn [uuidsDrawn withSession]. fold B'.
  unfold awaitUpload, handleFileChange.
  rewrite runBatch_app.
  by destruct (outcome (foldl (settle B' (f0 :: fs)) _ post)) as [[vs|err]|].
Qed.

Lemma remove_during_upload_witness :
  map dataUrl
    (images (session (foldl (step sampleBrowser)
       (withSession threeFrames initialApp)
       (FilesChosen (Some twoFiles) :: map ReaderCompleted [1%nat]
          ++ RemoveClicked "b" :: map ReaderCompleted [0%nat]))))
  = ["png:data:a.png"; "png:data:c.png"; "png:data:a.png"; "png:data:big.jpg"].
Proof.
  rewrite (remove_during_upload sampleBrowser
             (withSession threeFrames initialApp) twoFiles
             [1%nat] [0%nat] "b");
    [reflexivity | reflexivity | reflexivity | reflexivity | discriminate].
Defined.

(** Clicking an enabled Create button, then the load of the first image,
    then the answer of the encoder, leave the session that
    [handleCreateGif] computes and add exactly its calls to the encoder. *)
Theorem create_events_run_handleCreateGif (B : Browser) (a : App) :
  appState (session a) = Capturing ->
  isCreateDisabled (session a) = false ->
  session (foldl (step B) a [CreateClicked; FirstImageSettled; EncoderAnswered])
    = fst (handleCreateGif B (session a)) /\
  encoderCalls
    (foldl (step B) a [CreateClicked; FirstImageSettled; EncoderAnswered])
    = encoderCalls a ++ snd (handleCreateGif B (session a)).
Proof.
  intros Hc Hen.
  destruct (isCreateDisabled_enabled _ Hen) as [Hlen Hl].
  destruct (images (session a)) as [|img0 rest] eqn:Himg;
    [simpl in Hlen; lia|].
  rewrite <- Himg in Hlen.
  assert (Hclick : step B a CreateClicked =
    {| session := setError None (setAppState Processing (session a));
       upload := upload a;
       assembly :=
         Some (Probing (map dataUrl (images (session a)))
                 (Number.div (gifSpeed (session a)) (Number.of_Z 1000))
                 (dataUrl img0));
       encoderCalls := encoderCalls a;
       uuidsDrawn := uuidsDrawn a |}).
  { unfold step, renderContent.
    by rewrite Hc, Hen, handleCreateGif_begin_ok, Himg by done. }
  cbn [foldl]. rewrite Hclick.
  unfold handleCreateGif. rewrite handleCreateGif_begin_ok by done.
  rewrite Himg. unfold step, firstImage_onload.
  cbn [assembly session upload encoderCalls uuidsDrawn].
  destruct (decode B (dataUrl img0)) as [firstImage|];
    cbn [assembly session upload encoderCalls uuidsDrawn fst snd].
  - destruct (createGIF B _) as [obj|];
      cbn [assembly session upload encoderCalls uuidsDrawn fst snd]; done.
  - by rewrite app_nil_r.
Qed.

Lemma create_events_run_handleCreateGif_witness :
  session (foldl (step sampleBrowser) (withSession threeFrames initialApp)
             [CreateClicked; FirstImageSettled; EncoderAnswered])
    = fst (handleCreateGif sampleBrowser threeFrames).
Proof.
  destruct (create_events_run_handleCreateGif sampleBrowser
              (withSession threeFrames initialApp)) as (H & _);
    [reflexivity | reflexivity | exact H].
Defined.

(** *** Ids across uploads *)

Section MachineIds.
Local Open Scope nat_scope.
Variable B : Browser.
Hypothesis randomUUID_inj : forall k1 k2,
  randomUUID B k1 = randomUUID B k2 -> k1 = k2.

Lemma afterUUIDs_inj (u k1 k2 : nat) :
  randomUUID (afterUUIDs u B) k1 = randomUUID (afterUUIDs u B) k2 -> k1 = k2.
Proof. simpl. intros H%randomUUID_inj. lia. Qed.

Lemma awaitUpload_ids_inv (fs : list File) (b : Batch) (a : App) :
  NoDup (map id (images (session a))) ->
  (forall f, f ∈ images (session a) ->
     exists k, k < uuidsDrawn a /\ id f = randomUUID B k) ->
  batch_inv (afterUUIDs (uuidsDrawn a) B) fs b ->
  batch_ids_inv (afterUUIDs (uuidsDrawn a) B) b ->
  app_ids_inv B (awaitUpload fs b a).
Proof.
  intros Hnd Hold Hb (Hholes & Hnew & Hdrawn). unfold awaitUpload.
  destruct (outcome b) as [[vs|err]|] eqn:Ho.
  - destruct (inv_resolved _ _ _ Hb vs Ho) as [_ ->].
    unfold app_ids_inv. simpl. split; [|split].
    + rewrite map_app. apply NoDup_app. split; [done|]. split; [|done].
      intros x (f & -> & Hf)%list_elem_of_fmap (g & Hg & Hgin)%list_elem_of_fmap.
      destruct (Hold f Hf) as (k & Hk & Hidk).
      destruct (Hdrawn g Hgin) as (k' & Hk' & Hidk'). simpl in Hidk'.
      rewrite Hidk, Hidk' in Hg. apply randomUUID_inj in Hg. lia.
    + intros f [Hf|Hf]%elem_of_app.
      * destruct (Hold f Hf) as (k & Hk & Hidk). exists k. split; [lia|done].
      * destruct (Hdrawn f Hf) as (k & Hk & Hidk). simpl in Hidk.
        exists (uuidsDrawn a + k). split; [lia|done].
    + discriminate.
  - unfold app_ids_inv. simpl. split; [done|]. split; [|discriminate].
    intros f Hf. destruct (Hold f Hf) as (k & Hk & Hidk).
    exists k. split; [lia|done].
  - unfold app_ids_inv. simpl. split; [done|]. split; [done|].
    intros fs' b' H. injection H as <- <-. by split.
Qed.

(** An event that adds no frame, starts no upload and draws no UUID. *)
Lemma app_ids_inv_frame (a a' : App) :
  upload a' = upload a -> uuidsDrawn a' = uuidsDrawn a ->
  sublist (images (session a')) (images (session a)) ->
  app_ids_inv B a -> app_ids_inv B a'.
Proof.
  intros Hu Hd Hsub (Hnd & Hold & Hup). unfold app_ids_inv.
  rewrite Hu, Hd. split; [|split; [|done]].
  - eapply sublist_NoDup; [exact Hnd|]. by apply (fmap_sublist id).
  - intros f Hf. apply Hold. eapply elem_of_sublist; [exact Hf | exact Hsub].
Qed.

Lemma step_ids_inv (a : App) (e : Event) :
  app_ids_inv B a -> app_ids_inv B (step B a e).
Proof.
  intros Hinv. pose proof Hinv as (Hnd & Hold & Hup).
  destruct e as [files|i|i|v| | | | |]; simpl.
  - (* files chosen *)
    destruct (renderContent (session a)) as [fr sp u c| | | |]; try done.
    destruct u; [done|].
    destruct files as [[|f0 fs]|]; try done.
    apply awaitUpload_ids_inv; try done.
    + apply foldl_settle_inv, newBatch_inv.
    + apply foldl_settle_ids_inv; [apply afterUUIDs_inj|].
      apply newBatch_ids_inv.
  - (* a reader completed *)
    destruct (upload a) as [[fs b]|] eqn:Hu; [|done].
    destruct (Hup fs b eq_refl) as [Hb Hids].
    apply awaitUpload_ids_inv; try done.
    + by apply settle_inv.
    + apply settle_ids_inv; [apply afterUUIDs_inj | done].
  - (* remove *)
    destruct (renderContent (session a)); try done.
    apply (app_ids_inv_frame a); [done | done | | done].
    simpl. apply sublist_filter.
  - (* speed *)
    destruct (renderContent (session a)); try done;
      by apply (app_ids_inv_frame a).
  - (* create *)
    destruct (renderContent (session a)) as [fr sp u c| | | |]; try done.
    destruct c; [done|]. unfold handleCreateGif_begin.
    destruct (length (images (session a)) <? 2);
      [by apply (app_ids_inv_frame a)|].
    destruct (images (session a)) as [|img0 rest] eqn:Himg;
      apply (app_ids_inv_frame a); simpl; by rewrite ?Himg.
  - (* the first image settled *)
    destruct (assembly a) as [[urls itv src|options]|]; try done.
    destruct (decode B src); by apply (app_ids_inv_frame a).
  - (* the encoder answered *)
    destruct (assembly a) as [[urls itv src|options]|]; try done.
    destruct (createGIF B options) as [obj|]; [|done].
    apply (app_ids_inv_frame a); try done.
    unfold createGIF_callback. by destruct (Gifshot.error obj).
  - (* back *)
    destruct (renderContent (session a)); try done;
      by apply (app_ids_inv_frame a).
  - (* retry *)
    destruct (renderContent (session a)); try done;
      by apply (app_ids_inv_frame a).
Qed.

Lemma run_ids_inv (events : list Event) : app_ids_inv B (run B events).
Proof.
  unfold run.
  assert (H0 : app_ids_inv B initialApp).
  { unfold app_ids_inv. simpl. split; [constructor|].
    split; [|discriminate]. intros f Hf. by apply elem_of_nil in Hf. }
  revert H0. generalize initialApp.
  induction events as [|e events IH]; intros a Ha; [done|].
  simpl. apply IH. by apply step_ids_inv.
Qed.
End MachineIds.

(** When [crypto.randomUUID] never returns the same value twice, the
    frames of the collection have pairwise distinct ids after any sequence
    of events, uploads in several batches included; so the remove button
    of a frame of the capture view removes that frame and no other. *)
Theorem frame_ids_unique (B : Browser) (events : list Event) :
  (forall k1 k2, randomUUID B k1 = randomUUID B k2 -> k1 = k2) ->
  NoDup (map id (images (session (run B events)))) /\
  (forall f, f ∈ images (session (run B events)) ->
     appState (session (run B events)) = Capturing ->
     S (length (images (session
                  (step B (run B events) (RemoveClicked (id f))))))
       = length (images (session (run B events))) /\
     f ∉ images (session (step B (run B events) (RemoveClicked (id f))))).
Proof.
  intros Hinj.
  destruct (run_ids_inv B Hinj events) as (Hnd & _ & _).
  split; [exact Hnd|]. intros f Hf Hc.
  cbn [step]. unfold renderContent. rewrite Hc.
  unfold handleRemoveImage. simpl. split.
  - by eapply filter_id_length.
  - rewrite list_elem_of_filter. tauto.
Qed.

Lemma frame_ids_unique_witness :
  map id (images (session (run sampleBrowser twoUploads)))
    = [sampleId 1; sampleId 0; sampleId 2; sampleId 3] /\
  NoDup (map id (images (session (run sampleBrowser twoUploads)))).
Proof.
  split; [reflexivity|].
  by destruct (frame_ids_unique sampleBrowser twoUploads sampleId_inj).
Defined.

(** ** [AnimationPlayer]: the export button *)

Lemma playerStep_inv (gifUrl : string) (p : Player) (e : PlayerEvent) (n : nat) :
  (isExporting p = true <-> timers p = 1%nat) ->
  (timers p <= 1)%nat ->
  Forall (fun d => d = {| href := gifUrl; download := "anh_dong.gif" |})
         (downloads p) ->
  (length (downloads p) <= timers p + n)%nat ->
  (isExporting (playerStep gifUrl p e) = true
     <-> timers (playerStep gifUrl p e) = 1%nat) /\
  (timers (playerStep gifUrl p e) <= 1)%nat /\
  Forall (fun d => d = {| href := gifUrl; download := "anh_dong.gif" |})
         (downloads (playerStep gifUrl p e)) /\
  (length (downloads (playerStep gifUrl p e))
     <= timers (playerStep gifUrl p e)
        + (if isTimeoutFired e then S n else n))%nat.
Proof.
  intros Hiff Hle Hall Hlen. destruct e; simpl.
  - destruct (isExporting p) eqn:Hex; [by rewrite Hex|]. simpl.
    assert (timers p = 0%nat).
    { destruct (timers p) as [|[|k]]; [done| |lia].
      destruct Hiff as [_ H]. by specialize (H eq_refl). }
    repeat split; try lia.
    + apply Forall_app. split; [done|]. by constructor.
    + rewrite length_app. simpl. lia.
  - unfold exportTimeout. destruct (timers p) as [|k] eqn:Ht; simpl.
    + rewrite ?Ht. repeat split; try tauto; try lia; done.
    + repeat split; try done; try lia.
Qed.

(** Whatever the clicks and the timeouts, the export button is disabled
    exactly while one timeout is pending (so the timeout always re-enables
    it), every download is the GIF under the name [anh_dong.gif], and there
    is at most one more download than timeouts that have fired. *)
Theorem export_button_cooldown (gifUrl : string) (events : list PlayerEvent) :
  (isExporting (foldl (playerStep gifUrl) initialPlayer events) = true
     <-> timers (foldl (playerStep gifUrl) initialPlayer events) = 1%nat) /\
  (isExporting (foldl (playerStep gifUrl) initialPlayer events) = true ->
     isExporting (playerStep gifUrl
                    (foldl (playerStep gifUrl) initialPlayer events)
                    TimeoutFired) = false) /\
  Forall (fun d => d = {| href := gifUrl; download := "anh_dong.gif" |})
         (downloads (foldl (playerStep gifUrl) initialPlayer events)) /\
  (length (downloads (foldl (playerStep gifUrl) initialPlayer events))
     <= S (length (filter (fun e => isTimeoutFired e = true) events)))%nat.
Proof.
  assert (Hgen : forall events p n,
    (isExporting p = true <-> timers p = 1%nat) ->
    (timers p <= 1)%nat ->
    Forall (fun d => d = {| href := gifUrl; download := "anh_dong.gif" |})
           (downloads p) ->
    (length (downloads p) <= timers p + n)%nat ->
    let q := foldl (playerStep gifUrl) p events in
    (isExporting q = true <-> timers q = 1%nat) /\
    (timers q <= 1)%nat /\
    Forall (fun d => d = {| href := gifUrl; download := "anh_dong.gif" |})
           (downloads q) /\
    (length (downloads q)
       <= timers q
          + (n + length (filter (fun e => isTimeoutFired e = true) events)))%nat).
  { clear events. induction events as [|e events IH]; intros p n H1 H2 H3 H4.
    - simpl. rewrite Nat.add_0_r. done.
    - destruct (playerStep_inv gifUrl p e n H1 H2 H3 H4) as (H1' & H2' & H3' & H4').
      simpl foldl. rewrite filter_cons.
      destruct e; simpl isTimeoutFired in *.
      + rewrite decide_False by discriminate.
        by apply (IH _ n).
      + rewrite decide_True by done.
        specialize (IH _ (S n) H1' H2' H3' H4'). simpl in *.
        by rewrite <- Nat.add_succ_comm. }
  destruct (Hgen events initialPlayer 0%nat) as (H1 & H2 & H3 & H4);
    [simpl; split; discriminate | simpl; lia | by constructor | simpl; lia |].
  split; [done|]. split; [|split; [done|simpl in H4; lia]].
  intros Hex. apply H1 in Hex. simpl. unfold exportTimeout. by rewrite Hex.
Qed.

(** ** [buildCreativeInstruction] *)

Lemma append_assoc_string (a b c : string) :
  (a +:+ b) +:+ c = a +:+ (b +:+ c).
Proof.
  induction a as [|x a IH]; [done|].
  change (String x ((a +:+ b) +:+ c) = String x (a +:+ (b +:+ c))).
  by rewrite IH.
Qed.

Lemma newline_append_nonempty (s : string) : newline +:+ s <> "".
Proof. discriminate. Qed.

(** The instruction is empty exactly when there is neither an image nor a
    prompt: an image alone, even with an empty prompt, gives an
    instruction. *)
Theorem buildCreativeInstruction_empty_iff
    (toString : Number.number -> string) (animationPrompt : string)
    (originalImage : option string) (frameCount : Number.number) :
  buildCreativeInstruction toString animationPrompt originalImage frameCount = ""
  <-> truthy originalImage = false /\ animationPrompt = "".
Proof.
  unfold buildCreativeInstruction.
  destruct (truthy originalImage).
  - split; [intros H; by apply newline_append_nonempty in H|].
    intros [? _]. discriminate.
  - destruct (String.eqb_spec animationPrompt ""); simpl.
    + tauto.
    + split; [intros H; by apply newline_append_nonempty in H|].
      intros [_ ?]. done.
Qed.

Lemma contains_here (s post : string) : contains s (s +:+ post).
Proof. by exists "", post. Qed.

Lemma contains_prefix (s t pre : string) :
  contains s t -> contains s (pre +:+ t).
Proof.
  intros (p1 & p2 & ->). exists (pre +:+ p1), p2.
  by rewrite append_assoc_string.
Qed.

Lemma contains_suffix (s t post : string) :
  contains s t -> contains s (t +:+ post).
Proof.
  intros (p1 & p2 & ->). exists p1, (p2 +:+ post).
  by rewrite !append_assoc_string.
Qed.

(** Whenever the instruction is not empty it contains the prompt between
    double quotes, unchanged, and the frame count as the runtime prints
    it. *)
Theorem buildCreativeInstruction_contains_prompt
    (toString : Number.number -> string) (animationPrompt : string)
    (originalImage : option string) (frameCount : Number.number) :
  buildCreativeInstruction toString animationPrompt originalImage frameCount <> "" ->
  contains (quoted animationPrompt)
    (buildCreativeInstruction toString animationPrompt originalImage frameCount) /\
  contains (toString frameCount)
    (buildCreativeInstruction toString animationPrompt originalImage frameCount).
Proof.
  unfold buildCreativeInstruction. cbv zeta.
  destruct (truthy originalImage); [|destruct (negb (String.eqb animationPrompt ""))];
    intros Hne; try done; split.
  - apply contains_prefix, contains_suffix.
    do 4 apply contains_prefix. apply contains_here.
  - apply contains_prefix, contains_suffix.
    do 7 apply contains_prefix. apply contains_suffix, contains_prefix.
    apply contains_here.
  - apply contains_prefix, contains_suffix.
    do 4 apply contains_prefix. apply contains_here.
  - apply contains_prefix, contains_suffix.
    do 7 apply contains_prefix. apply contains_prefix.
    apply contains_here.
Qed.

Lemma buildCreativeInstruction_contains_prompt_witness :
  contains (quoted "click")
    (buildCreativeInstruction (fun _ => "4") "click" None (Number.of_Z 4)).
Proof.
  destruct (buildCreativeInstruction_contains_prompt (fun _ => "4") "click"
              None (Number.of_Z 4)) as (H & _); [discriminate | exact H].
Defined.
